(** * Starting conformations: the helical loop brush

    A shallow embedding of [make_helical_loopbrush]
    (polymer_simulations/starting_conformations.py) and the properties of
    its four stages: backbone index resolution, helix generation, loop
    direction and hairpin arm placement.

    float64 values are idealised as real numbers (exact arithmetic); every
    statement about a quotient carries the hypothesis that its divisor is
    nonzero.  Array indices are Python integers ([Z]) with numpy's rules:
    a negative index counts from the end, an index outside [-n, n) raises
    IndexError. *)

From Stdlib Require Import Reals Lra.
From stdpp Require Import base tactics option list list_numbers sorting strings gmap.

Local Open Scope Z_scope.

(** ** Exceptions and the two monads *)

(** The exceptions a call can end in.  [InvalidLoopSpecification] and
    [InvalidParameter] are the names of the documented error taxonomy;
    the source defines neither and has no [raise] statement. *)
Inductive exn : Type :=
  | ValueError
  | IndexError
  | ZeroDivisionError
  | NameError (name : string)
  | InvalidLoopSpecification
  | InvalidParameter.

Inductive res (A : Type) : Type :=
  | Ok (a : A)
  | Raise (e : exn).
Arguments Ok {A} a.
Arguments Raise {A} e.

#[global] Instance res_ret : MRet res := λ A a, Ok a.
#[global] Instance res_bind : MBind res := λ A B f m,
  match m with
  | Ok a => f a
  | Raise e => Raise e
  end.

(** numpy's global generator: the stream of values its next draws return. *)
Definition rng : Type := nat → R.

(** Statements that may draw random numbers and may raise. *)
Definition M (A : Type) : Type := rng → res A * rng.

#[global] Instance M_ret : MRet M := λ A a g, (Ok a, g).
#[global] Instance M_bind : MBind M := λ A B f m g,
  match m g with
  | (Ok a, g') => f a g'
  | (Raise e, g') => (Raise e, g')
  end.

Definition lift {A} (r : res A) : M A := λ g, (r, g).

(** Reading a name bound neither as a parameter or local of the function
    nor at module level ([np] and the function itself are the only module
    names). *)
Definition unbound_name {A} (name : string) : M A :=
  λ g, (Raise (NameError name), g).

(** [np.random.random(n)]: the next [n] draws. *)
Definition np_random (n : nat) : M (list R) :=
  λ g, (Ok (map g (seq 0 n)), λ k, g (n + k)%nat).

(** ** Rows of the coordinate array *)

Record vec3 : Type := V3 { vx : R; vy : R; vz : R }.

Definition vzero : vec3 := V3 0 0 0.
Definition vadd (a b : vec3) : vec3 :=
  V3 (vx a + vx b) (vy a + vy b) (vz a + vz b).
Definition vsub (a b : vec3) : vec3 :=
  V3 (vx a - vx b) (vy a - vy b) (vz a - vz b).
Definition vscale (a : vec3) (k : R) : vec3 :=
  V3 (vx a * k) (vy a * k) (vz a * k).
Definition vdiv (a : vec3) (k : R) : vec3 :=
  V3 (vx a / k) (vy a / k) (vz a / k).
Definition set_z (a : vec3) (z : R) : vec3 := V3 (vx a) (vy a) z.
Definition cross (a b : vec3) : vec3 :=
  V3 (vy a * vz b - vz a * vy b)
     (vz a * vx b - vx a * vz b)
     (vx a * vy b - vy a * vx b).
(** [(u**2).sum()] *)
Definition sumsq (a : vec3) : R := (vx a * vx a + vy a * vy a + vz a * vz a)%R.
(** [(u**2).sum()**0.5] *)
Definition vnorm (a : vec3) : R := sqrt (sumsq a).

(** Comparison of two floats. *)
#[global] Instance R_eq_dec : EqDecision R := Req_dec_T.

(** ** numpy primitives *)

(** [np.arange(a, b)] and [range(a, b)]: a, a+1, ..., b-1. *)
Definition arange (a b : Z) : list Z := seqZ a (b - a).

(** [np.zeros(shape=(L,3))]: negative dimensions are refused. *)
Definition np_zeros (L : Z) : res (list vec3) :=
  if decide (L < 0) then Raise ValueError
  else Ok (replicate (Z.to_nat L) vzero).

(** Position of index [i] in an array of [n] rows. *)
Definition norm_index (n : nat) (i : Z) : res nat :=
  if decide (0 ≤ i < Z.of_nat n) then Ok (Z.to_nat i)
  else if decide (- Z.of_nat n ≤ i < 0) then Ok (Z.to_nat (i + Z.of_nat n))
  else Raise IndexError.

(** [c[i]] *)
Definition get_row {V} (c : list V) (i : Z) : res V :=
  k ← norm_index (length c) i;
  match c !! k with
  | Some v => Ok v
  | None => Raise IndexError
  end.

(** [c[i] = v] *)
Definition set_row {V} (c : list V) (i : Z) (v : V) : res (list V) :=
  k ← norm_index (length c) i;
  Ok (<[k := v]> c).

(** [c[idxs]] for an index array. *)
Fixpoint get_rows {V} (c : list V) (idxs : list Z) : res (list V) :=
  match idxs with
  | [] => Ok []
  | i :: rest =>
      v ← get_row c i;
      vs ← get_rows c rest;
      Ok (v :: vs)
  end.

(** [c[idxs] = vals] for an index array: rows are written in order, so
    the last write to a repeated index stays. *)
Fixpoint set_rows {V} (c : list V) (idxs : list Z) (vals : list V)
  : res (list V) :=
  match idxs, vals with
  | i :: rest, v :: vs =>
      c' ← set_row c i v;
      set_rows c' rest vs
  | _, _ => Ok c
  end.

(** [np.linspace(start, stop, num)]: [num] samples [k * step + start] with
    [step = (stop - start) / (num - 1)], the last one set to [stop]. *)
Definition linspace (start stop : R) (num : nat) : list R :=
  match num with
  | O => []
  | S O => [start]
  | S (S _ as d) =>
      let step := ((stop - start) / INR d)%R in
      <[d := stop]> (map (λ k, (INR k * step + start)%R) (seq 0 num))
  end.

(** [rnd.reshape(n, 3)] *)
Fixpoint reshape3 (l : list R) : list vec3 :=
  match l with
  | x :: y :: z :: rest => V3 x y z :: reshape3 rest
  | _ => []
  end.

(** ** Stage 1: loop and backbone indices (lines 46-58) *)

Definition loopstarts (loops : list (Z * Z)) : list Z :=
  map (λ i, Z.min i.1 i.2) loops.
Definition loopends (loops : list (Z * Z)) : list Z :=
  map (λ i, Z.max i.1 i.2) loops.
Definition looplens (loops : list (Z * Z)) : list Z :=
  zip_with Z.sub (loopends loops) (loopstarts loops).

Definition bbidxs (L : Z) (loops : list (Z * Z)) : list Z :=
  match loops with
  | [] => arange 0 L
  | _ =>
      arange 0 (nth 0 (loopstarts loops) 0 + 1)
      ++ concat (map (λ i, arange (nth i (loopends loops) 0)
                                  (nth (S i) (loopstarts loops) 0 + 1))
                     (seq 0 (length loops - 1)))
      ++ arange (List.last (loopends loops) 0) L
  end.

(** ** Stage 2: helix phases and backbone points (lines 60-69) *)

Definition helix_turn_len (helix_radius helix_step : R) : R :=
  sqrt ((2 * PI * helix_radius) ^ 2 + helix_step ^ 2).

(** The first quotient divides two Python floats and raises on a zero
    divisor; the second divides by a numpy scalar and does not raise. *)
Definition helix_total_winding (bb_len : nat) (bb_linear_density turn_len : R)
  : res R :=
  if decide (bb_linear_density = 0%R) then Raise ZeroDivisionError
  else Ok (2 * PI * IZR (Z.of_nat bb_len - 1) / bb_linear_density / turn_len)%R.

Definition helix_point (helix_radius helix_step phase : R) : vec3 :=
  V3 (helix_radius * sin phase)
     (helix_radius * cos phase)
     (phase / 2 / PI * helix_step).

(** Lines 45-69: the array after the backbone has been laid on the helix. *)
Definition backbone_stage (L : Z) (helix_radius helix_step : R)
    (loops : list (Z * Z)) (bb_linear_density : R) : res (list vec3) :=
  coords ← np_zeros L;
  let idxs := bbidxs L loops in
  let bb_len := length idxs in
  let turn := helix_turn_len helix_radius helix_step in
  winding ← helix_total_winding bb_len bb_linear_density turn;
  let bb_phases := linspace 0 winding bb_len in
  set_rows coords idxs (map (helix_point helix_radius helix_step) bb_phases).

(** Lines 70-71: [coords[bbidxs] += random(...) * kwargs.get(...)].  The
    target rows are read, the random numbers are drawn, then the name
    [kwargs] is looked up. *)
Definition jitter_stage (coords : list vec3) (idxs : list Z)
  : M (list vec3) :=
  rows ← lift (get_rows coords idxs);
  rnd ← np_random (length idxs * 3);
  shift ← unbound_name "kwargs";
  lift (set_rows coords idxs
          (zip_with vadd rows (map (λ v, vscale v shift) (reshape3 rnd)))).

(** ** Stage 3: loop direction (lines 74-82) *)

(** [u /= (u**2).sum()**0.5] *)
Definition normalize (u : vec3) : vec3 := vdiv u (vnorm u).

(** Lines 79-80 and 82. *)
Definition anchored_direction (a b : vec3) : vec3 :=
  normalize (set_z (vdiv (vadd a b) 2) 0).

(** Lines 75-77 and 82, [a] and [b] the rows at [loops[i][0]] and
    [loops[i][1]], [p] the three draws. *)
Definition random_direction (a b p : vec3) : vec3 :=
  let bb_u := vsub b a in
  let shake := V3 (vx p * 0.2 - 0.1) (vy p * 0.2 - 0.1) (vz p * 0.2 - 0.1) in
  normalize (set_z (cross bb_u (vadd bb_u shake)) 0).

(** ** Stage 4: hairpin arms (lines 83-85) *)

Section Arms.
Context {V : Type} (add : V → V → V).

(** Number of iterations of the inner loop: [looplens[i] // 2]. *)
Definition arm_steps (s e : Z) : nat := Z.to_nat ((e - s) `div` 2).

(** One iteration: the start-side write, then the end-side write. *)
Definition arm_step (s e : Z) (u : V) (c : list V) (j : nat)
  : res (list V) :=
  a ← get_row c (s + Z.of_nat j);
  c1 ← set_row c (s + Z.of_nat j + 1) (add a u);
  b ← get_row c1 (e - Z.of_nat j);
  set_row c1 (e - Z.of_nat j - 1) (add b u).

Fixpoint arm_loop (s e : Z) (u : V) (c : list V) (js : list nat)
  : res (list V) :=
  match js with
  | [] => Ok c
  | j :: rest => c' ← arm_step s e u c j; arm_loop s e u c' rest
  end.

(** [for j in range(looplens[i] // 2): ...] with [s = loopstarts[i]]
    and [e = loopends[i]]. *)
Definition place_arms (c : list V) (s e : Z) (u : V) : res (list V) :=
  arm_loop s e u c (seq 0 (arm_steps s e)).
End Arms.

(** ** The function *)

(** Lines 74-85 for one loop. *)
Definition loop_body (coords : list vec3) (loop : Z * Z) : M (list vec3) :=
  random_loop_orientation ← unbound_name "random_loop_orientation";
  a ← lift (get_row coords loop.1);
  b ← lift (get_row coords loop.2);
  u ← (if random_loop_orientation : bool
       then p ← np_random 3;
            mret (random_direction a b (V3 (nth 0 p 0%R) (nth 1 p 0%R) (nth 2 p 0%R)))
       else mret (anchored_direction a b));
  lift (place_arms vadd coords (Z.min loop.1 loop.2) (Z.max loop.1 loop.2) u).

Fixpoint loop_stage (coords : list vec3) (loops : list (Z * Z))
  : M (list vec3) :=
  match loops with
  | [] => mret coords
  | loop :: rest => coords' ← loop_body coords loop; loop_stage coords' rest
  end.

Definition make_helical_loopbrush (L : Z) (helix_radius helix_step : R)
    (loops : list (Z * Z)) (bb_linear_density : R)
    (random_loop_orientations : bool) (bb_random_shift : R)
  : M (list vec3) :=
  coords ← lift (backbone_stage L helix_radius helix_step loops
                   bb_linear_density);
  coords ← jitter_stage coords (bbidxs L loops);
  loop_stage coords loops.

(** ** The backbone index set as the specification words it *)

(** A loop list in ascending, non-overlapping order: every pair is
    (start, end) with start < end, and a loop ends no later than the next
    one starts (two neighbours may share an anchor). *)
Fixpoint ascending (loops : list (Z * Z)) : Prop :=
  match loops with
  | [] => True
  | l :: rest =>
      l.1 < l.2
      ∧ match rest with [] => True | l' :: _ => l.2 ≤ l'.1 end
      ∧ ascending rest
  end.

(** [0, start_0] ∪ ⋃ [end_i, start_(i+1)] ∪ [end_last, L-1], inclusive
    ranges, or [0, L) without loops. *)
Definition spec_backbone (L : Z) (loops : list (Z * Z)) (x : Z) : Prop :=
  match loops with
  | [] => 0 ≤ x < L
  | first :: _ =>
      0 ≤ x ≤ first.1
      ∨ (∃ i l l', loops !! i = Some l ∧ loops !! S i = Some l'
                   ∧ l.2 ≤ x ≤ l'.1)
      ∨ (∃ l, last loops = Some l ∧ l.2 ≤ x ≤ L - 1)
  end.

(** The ranges between consecutive loops, by recursion on the list. *)
Fixpoint gaps (loops : list (Z * Z)) : list Z :=
  match loops with
  | l :: (l' :: _) as rest =>
      arange (Z.max l.1 l.2) (Z.min l'.1 l'.2 + 1) ++ gaps rest
  | _ => []
  end.

(** ** The helix as the specification words it *)

(** Turn length T = sqrt((2 pi r)^2 + s^2). *)
Definition spec_turn_len (r s : R) : R := sqrt ((2 * PI * r) ^ 2 + s ^ 2).

(** Phase sweep 2 pi (bb_len - 1) / (rho T). *)
Definition spec_winding (bb_len : nat) (rho T : R) : R :=
  (2 * PI * (INR bb_len - 1) / (rho * T))%R.

(** The point at phase phi: (r sin phi, r cos phi, (phi / 2 pi) s). *)
Definition spec_helix_point (r s phi : R) : vec3 :=
  V3 (r * sin phi) (r * cos phi) (phi / (2 * PI) * s).

(** Values evenly spaced over [lo, hi]: they start at [lo], advance by a
    constant step and end at [hi]. *)
Definition evenly_spaced (lo hi : R) (l : list R) : Prop :=
  ∃ step : R,
    (∀ k x, l !! k = Some x → x = (lo + INR k * step)%R)
    ∧ (l ≠ [] → last l = Some hi).

(** ** The array during arm placement *)

Section ArmState.
Context {V : Type} (add : V → V → V).

(** [x + u + ... + u], [m] times. *)
Definition steps_from (u : V) (m : nat) (x : V) : V :=
  Nat.iter m (λ y, add y u) x.

(** Row [i] after [m] iterations of the inner loop, [a0] and [b0] the
    rows of the two anchors [s] and [e] before the loop: the end-side
    rod, else the start-side rod, else the row as it was. *)
Definition arm_value (c : list V) (s e : Z) (u a0 b0 : V) (m i : nat)
  : option V :=
  if decide (e - Z.of_nat m ≤ Z.of_nat i < e)
  then Some (steps_from u (Z.to_nat (e - Z.of_nat i)) b0)
  else if decide (s < Z.of_nat i ≤ s + Z.of_nat m)
  then Some (steps_from u (Z.to_nat (Z.of_nat i - s)) a0)
  else c !! i.
End ArmState.

(** The backbone indices a call can write: numpy accepts [-L, L). *)
Definition backbone_fits (L : Z) (loops : list (Z * Z)) : Prop :=
  Forall (λ i, - L ≤ i < L) (bbidxs L loops).

(** ** The anchored direction as the specification words it *)

(** The midpoint of the two anchors with its axial coordinate forced to 0. *)
Definition spec_midpoint (a b : vec3) : vec3 :=
  V3 ((vx a + vx b) / 2) ((vy a + vy b) / 2) 0.

(** That midpoint, normalized. *)
Definition spec_direction (a b : vec3) : vec3 :=
  let m := spec_midpoint a b in
  let len := sqrt (vx m ^ 2 + vy m ^ 2 + vz m ^ 2) in
  V3 (vx m / len) (vy m / len) (vz m / len).

(** ** Counting and ordering the backbone *)

(** The backbone after its first range: the ranges between consecutive
    loops, then the range from the last loop end to the chain end. *)
Definition bb_tail (L : Z) (loops : list (Z * Z)) : list Z :=
  gaps loops ++ arange (List.last (loopends loops) 0) L.

(** Number of particles strictly inside the loops. *)
Definition interior_count (loops : list (Z * Z)) : Z :=
  foldr (λ l acc, (l.2 - l.1 - 1) + acc) 0 loops.

(** * Properties *)

(** ** Stage 1 *)

Lemma elem_of_arange (a b x : Z) : x ∈ arange a b ↔ a ≤ x < b.
Proof. unfold arange. rewrite elem_of_seqZ. lia. Qed.

Lemma NoDup_arange (a b : Z) : NoDup (arange a b).
Proof. apply NoDup_seqZ. Qed.

Lemma gaps_concat (loops : list (Z * Z)) :
  concat (map (λ i, arange (nth i (loopends loops) 0)
                           (nth (S i) (loopstarts loops) 0 + 1))
              (seq 0 (length loops - 1)))
  = gaps loops.
Proof.
  induction loops as [|l [|l' rest] IH]; [done..|].
  replace (length (l :: l' :: rest) - 1)%nat with (S (length (l' :: rest) - 1))
    by (simpl; lia).
  change (gaps (l :: l' :: rest))
    with (arange (Z.max l.1 l.2) (Z.min l'.1 l'.2 + 1) ++ gaps (l' :: rest)).
  rewrite <- IH. cbn [seq].
  rewrite <- seq_shift. cbn [map concat]. rewrite map_map.
  reflexivity.
Qed.

Lemma last_loopends (l : Z * Z) (rest : list (Z * Z)) :
  ∃ l', last (l :: rest) = Some l'
        ∧ List.last (loopends (l :: rest)) 0 = Z.max l'.1 l'.2.
Proof.
  revert l. induction rest as [|l2 rest IH]; intros l.
  - exists l. done.
  - destruct (IH l2) as (l' & Hl & Hm). exists l'. split; [done|].
    exact Hm.
Qed.

Lemma bbidxs_cons (L : Z) (l : Z * Z) (rest : list (Z * Z)) :
  bbidxs L (l :: rest)
  = arange 0 (Z.min l.1 l.2 + 1) ++ gaps (l :: rest)
    ++ arange (List.last (loopends (l :: rest)) 0) L.
Proof. unfold bbidxs. rewrite gaps_concat. reflexivity. Qed.

Lemma elem_of_gaps (loops : list (Z * Z)) (x : Z) :
  x ∈ gaps loops
  ↔ ∃ i l l', loops !! i = Some l ∧ loops !! S i = Some l'
              ∧ Z.max l.1 l.2 ≤ x ≤ Z.min l'.1 l'.2.
Proof.
  induction loops as [|l [|l' rest] IH].
  - split; [by intros ?%elem_of_nil|]. by intros (i & ? & ? & ? & _).
  - split; [by intros ?%elem_of_nil|].
    intros ([|i] & ? & ? & ? & ? & _); done.
  - cbn [gaps]. rewrite elem_of_app, elem_of_arange, IH. split.
    + intros [H | (i & a & b & Ha & Hb & H)].
      * exists 0%nat, l, l'. repeat split; try done; lia.
      * exists (S i), a, b. done.
    + intros ([|i] & a & b & Ha & Hb & H).
      * left. simpl in Ha, Hb. simplify_eq. lia.
      * right. exists i, a, b. done.
Qed.

Lemma ascending_lookup (loops : list (Z * Z)) (i : nat) (l : Z * Z) :
  ascending loops → loops !! i = Some l → l.1 < l.2.
Proof.
  revert i. induction loops as [|a rest IH]; intros [|i] Ha Hl; try done.
  - simpl in Hl. simplify_eq. apply Ha.
  - apply (IH i); [apply Ha | done].
Qed.

Lemma ascending_last (loops : list (Z * Z)) (l : Z * Z) :
  ascending loops → last loops = Some l → l.1 < l.2.
Proof.
  rewrite last_lookup. apply ascending_lookup.
Qed.

(** Membership in the backbone of a non-empty loop list, whatever the
    order of the loops. *)
Lemma elem_of_bbidxs_cons (L : Z) (l : Z * Z) (rest : list (Z * Z)) (x : Z) :
  x ∈ bbidxs L (l :: rest)
  ↔ 0 ≤ x ≤ Z.min l.1 l.2
    ∨ (∃ i a b, (l :: rest) !! i = Some a ∧ (l :: rest) !! S i = Some b
                ∧ Z.max a.1 a.2 ≤ x ≤ Z.min b.1 b.2)
    ∨ (∃ a, last (l :: rest) = Some a ∧ Z.max a.1 a.2 ≤ x < L).
Proof.
  rewrite bbidxs_cons, !elem_of_app, !elem_of_arange, elem_of_gaps.
  destruct (last_loopends l rest) as (l' & Hl' & ->).
  split; (intros [H | [H | H]]; [left; lia | right; left; exact H |]).
  - right; right. by exists l'.
  - destruct H as (a & Ha & H). right; right. by simplify_eq.
Qed.

Lemma StronglySorted_arange (a b : Z) : StronglySorted Z.lt (arange a b).
Proof.
  unfold arange. remember (Z.to_nat (b - a)) as n eqn:Hn.
  revert a Hn. induction n as [|n IH]; intros a Hn.
  - rewrite seqZ_nil by lia. constructor.
  - rewrite seqZ_cons by lia. apply StronglySorted_cons. split.
    + apply Forall_forall. intros x Hx%elem_of_seqZ. lia.
    + replace (Z.pred (b - a)) with (b - Z.succ a) by lia.
      apply IH. lia.
Qed.

Lemma bbidxs_tail (L : Z) (l : Z * Z) (rest : list (Z * Z)) :
  bbidxs L (l :: rest)
  = arange 0 (Z.min l.1 l.2 + 1) ++ bb_tail L (l :: rest).
Proof. apply bbidxs_cons. Qed.

Lemma bb_tail_cons (L : Z) (l l' : Z * Z) (rest : list (Z * Z)) :
  bb_tail L (l :: l' :: rest)
  = arange (Z.max l.1 l.2) (Z.min l'.1 l'.2 + 1) ++ bb_tail L (l' :: rest).
Proof. unfold bb_tail. cbn [gaps]. by rewrite <- app_assoc. Qed.

(** After an ascending loop list's first range the backbone goes on
    strictly upwards, from the first loop's end. *)
Lemma bb_tail_sorted (L : Z) (rest : list (Z * Z)) :
  ∀ l, ascending (l :: rest) →
       StronglySorted Z.lt (bb_tail L (l :: rest))
       ∧ ∀ x, x ∈ bb_tail L (l :: rest) → l.2 ≤ x.
Proof.
  induction rest as [|l' rest IH]; intros l (Hl & Hnext & Hrest).
  - unfold bb_tail. simpl. split; [apply StronglySorted_arange|].
    intros x Hx%elem_of_arange. lia.
  - destruct (IH l' Hrest) as [IHs IHlow]. pose proof Hrest as (Hl' & _).
    rewrite bb_tail_cons. split.
    + apply StronglySorted_app. split; [|split; [apply StronglySorted_arange|done]].
      intros x1 x2 Hx1%elem_of_arange Hx2%IHlow. lia.
    + intros x [Hx%elem_of_arange | Hx%IHlow]%elem_of_app; lia.
Qed.

Lemma bbidxs_sorted (L : Z) (loops : list (Z * Z)) :
  ascending loops → StronglySorted Z.lt (bbidxs L loops).
Proof.
  intros Hasc. destruct loops as [|l rest]; [apply StronglySorted_arange|].
  rewrite bbidxs_tail. destruct (bb_tail_sorted L rest l Hasc) as [Hs Hlow].
  pose proof Hasc as (Hl & _).
  apply StronglySorted_app. split; [|split; [apply StronglySorted_arange|done]].
  intros x1 x2 Hx1%elem_of_arange Hx2%Hlow. lia.
Qed.

Lemma StronglySorted_lt_NoDup (l : list Z) : StronglySorted Z.lt l → NoDup l.
Proof.
  induction 1 as [|x l _ IH Hx]; constructor; [|done].
  intros Hin. rewrite Forall_forall in Hx. specialize (Hx x Hin). lia.
Qed.

Lemma NoDup_bbidxs (L : Z) (loops : list (Z * Z)) :
  ascending loops → NoDup (bbidxs L loops).
Proof. intros H. by apply StronglySorted_lt_NoDup, bbidxs_sorted. Qed.

(** C5.  For a loop list in ascending non-overlapping order the backbone
    indices built by the code are exactly the members of
    [0, start_0] ∪ ⋃ [end_i, start_(i+1)] ∪ [end_last, L-1], and of [0, L)
    when there is no loop; each index occurs once. *)
Theorem bbidxs_is_spec_backbone (L : Z) (loops : list (Z * Z)) :
  ascending loops →
  (∀ x, x ∈ bbidxs L loops ↔ spec_backbone L loops x)
  ∧ NoDup (bbidxs L loops).
Proof.
  intros Hasc. split.
  - intros x. destruct loops as [|l rest].
    + apply elem_of_arange.
    + rewrite bbidxs_cons, !elem_of_app, !elem_of_arange, elem_of_gaps.
      destruct (last_loopends l rest) as (l' & Hl' & ->).
      pose proof (ascending_last _ _ Hasc Hl') as Hlast.
      pose proof (ascending_lookup _ 0 l Hasc eq_refl) as Hfirst.
      unfold spec_backbone. split.
      * intros [H | [(i & a & b & Ha & Hb & H) | H]].
        -- left. lia.
        -- right; left. exists i, a, b.
           pose proof (ascending_lookup _ _ _ Hasc Ha).
           pose proof (ascending_lookup _ _ _ Hasc Hb).
           repeat split; try done; lia.
        -- right; right. exists l'. split; [done | lia].
      * intros [H | [(i & a & b & Ha & Hb & H) | (l2 & Hl2 & H)]].
        -- left. lia.
        -- right; left. exists i, a, b.
           pose proof (ascending_lookup _ _ _ Hasc Ha).
           pose proof (ascending_lookup _ _ _ Hasc Hb).
           repeat split; try done; lia.
        -- right; right. simplify_eq. lia.
  - destruct loops as [|l rest]; [apply NoDup_arange|].
    rewrite bbidxs_cons.
    assert (Htail : ∀ l rest, ascending (l :: rest) →
              NoDup (gaps (l :: rest)
                     ++ arange (List.last (loopends (l :: rest)) 0) L)
              ∧ ∀ x, x ∈ gaps (l :: rest)
                         ++ arange (List.last (loopends (l :: rest)) 0) L
                     → l.2 ≤ x).
    { clear. intros l rest. revert l.
      induction rest as [|l' rest IH]; intros l (Hl & Hnext & Hrest).
      - simpl. split; [apply NoDup_arange|].
        intros x Hx%elem_of_arange. lia.
      - destruct (IH l' Hrest) as [IHnd IHlow].
        pose proof Hrest as (Hl' & _).
        change (gaps (l :: l' :: rest))
          with (arange (Z.max l.1 l.2) (Z.min l'.1 l'.2 + 1)
                ++ gaps (l' :: rest)).
        change (List.last (loopends (l :: l' :: rest)) 0)
          with (List.last (loopends (l' :: rest)) 0).
        rewrite <- app_assoc. split.
        + apply NoDup_app. split; [apply NoDup_arange|]. split; [|done].
          intros x Hx%elem_of_arange Hx'%IHlow. lia.
        + intros x [Hx%elem_of_arange | Hx%IHlow]%elem_of_app; lia. }
    destruct (Htail l rest Hasc) as [Hnd Hlow]. pose proof Hasc as (Hl & _).
    apply NoDup_app. split; [apply NoDup_arange|]. split; [|done].
    intros x Hx%elem_of_arange Hx'%Hlow. lia.
Qed.

Lemma bbidxs_is_spec_backbone_witness :
  ascending [(2, 6)]
  ∧ (∀ x, x ∈ bbidxs 10 [(2, 6)] ↔ spec_backbone 10 [(2, 6)] x)
  ∧ NoDup (bbidxs 10 [(2, 6)]).
Proof.
  assert (H : ascending [(2, 6)]) by (simpl; lia).
  split; [exact H | apply (bbidxs_is_spec_backbone 10 [(2, 6)] H)].
Defined.

(** The worked example: L = 10 with the single loop (2, 6). *)
Example bbidxs_example : bbidxs 10 [(2, 6)] = [0; 1; 2; 6; 7; 8; 9].
Proof. reflexivity. Qed.

Lemma bbidxs_in_range (L : Z) (loops : list (Z * Z)) (x : Z) :
  ascending loops → Forall (λ l, 0 ≤ l.1 ∧ l.2 < L) loops →
  x ∈ bbidxs L loops → 0 ≤ x < L.
Proof.
  intros Hasc Hrange Hx.
  destruct loops as [|l rest]; [by apply elem_of_arange in Hx|].
  apply elem_of_bbidxs_cons in Hx.
  rewrite Forall_lookup in Hrange.
  destruct Hx as [H | [(i & a & b & Ha & Hb & H) | (l' & Hl' & H)]].
  - pose proof (Hrange 0%nat l eq_refl).
    pose proof (ascending_lookup _ 0 l Hasc eq_refl). lia.
  - pose proof (Hrange _ _ Ha). pose proof (Hrange _ _ Hb).
    pose proof (ascending_lookup _ _ _ Hasc Ha).
    pose proof (ascending_lookup _ _ _ Hasc Hb). lia.
  - rewrite last_lookup in Hl'. pose proof (Hrange _ _ Hl').
    pose proof (ascending_lookup _ _ _ Hasc Hl'). lia.
Qed.

(** ** Reading and writing rows *)

Lemma norm_index_in (n : nat) (i : Z) :
  0 ≤ i < Z.of_nat n → norm_index n i = Ok (Z.to_nat i).
Proof. intros H. unfold norm_index. by rewrite decide_True. Qed.

Lemma set_row_in {V} (c : list V) (i : Z) (v : V) :
  0 ≤ i < Z.of_nat (length c) → set_row c i v = Ok (<[Z.to_nat i := v]> c).
Proof. intros H. unfold set_row. by rewrite norm_index_in. Qed.

Lemma get_row_in {V} (c : list V) (i : Z) (v : V) :
  0 ≤ i → c !! Z.to_nat i = Some v → get_row c i = Ok v.
Proof.
  intros Hi Hv. unfold get_row.
  rewrite norm_index_in by (apply lookup_lt_Some in Hv; lia).
  simpl. by rewrite Hv.
Qed.

Lemma norm_index_lt (n : nat) (i : Z) (k : nat) :
  norm_index n i = Ok k → (k < n)%nat ∧ - Z.of_nat n ≤ i < Z.of_nat n.
Proof.
  unfold norm_index. repeat case_decide; intros ?; simplify_eq; lia.
Qed.

Lemma set_row_length {V} (c c' : list V) (i : Z) (v : V) :
  set_row c i v = Ok c' → length c' = length c.
Proof.
  unfold set_row. destruct (norm_index (length c) i); simpl; [|done].
  intros ?; simplify_eq. apply length_insert.
Qed.

(** Writing a list of distinct in-range rows succeeds, stores every value
    at its index and leaves the other rows alone. *)
Lemma set_rows_in {V} (idxs : list Z) :
  ∀ (vals c : list V),
    (∀ i, i ∈ idxs → 0 ≤ i < Z.of_nat (length c)) →
    length vals = length idxs →
    NoDup idxs →
    ∃ c', set_rows c idxs vals = Ok c'
          ∧ length c' = length c
          ∧ (∀ k i v, idxs !! k = Some i → vals !! k = Some v →
                      c' !! Z.to_nat i = Some v)
          ∧ (∀ j, Z.of_nat j ∉ idxs → c' !! j = c !! j).
Proof.
  induction idxs as [|i rest IH]; intros vals c Hin Hlen Hnd.
  - exists c. destruct vals; repeat split; done.
  - destruct vals as [|v vs]; [done|].
    apply NoDup_cons in Hnd as [Hi Hnd].
    assert (Hi0 : 0 ≤ i < Z.of_nat (length c)) by (apply Hin; left).
    cbn [set_rows]. rewrite set_row_in by done. cbn [mbind res_bind].
    destruct (IH vs (<[Z.to_nat i := v]> c)) as (c' & Hc' & Hl & Hset & Hother).
    { intros j Hj. rewrite length_insert. apply Hin. by right. }
    { simpl in Hlen. lia. }
    { done. }
    exists c'. rewrite length_insert in Hl. repeat split; try done.
    + intros [|k] j w Hj Hw; simpl in Hj, Hw; simplify_eq.
      * rewrite Hother by (rewrite Z2Nat.id by lia; done).
        apply list_lookup_insert_eq. lia.
      * eauto.
    + intros j Hj. apply not_elem_of_cons in Hj as [Hne Hj].
      rewrite Hother by done. apply list_lookup_insert_ne. lia.
Qed.

(** An out-of-range index makes the write fail. *)
Lemma set_rows_out {V} (idxs : list Z) :
  ∀ (vals c : list V) (k : nat) (i : Z),
    length vals = length idxs →
    idxs !! k = Some i →
    ¬ (- Z.of_nat (length c) ≤ i < Z.of_nat (length c)) →
    set_rows c idxs vals = Raise IndexError.
Proof.
  induction idxs as [|i0 rest IH]; intros vals c k i Hlen Hk Hout; [done|].
  destruct vals as [|v vs]; [done|]. cbn [set_rows].
  unfold set_row at 1. destruct k as [|k]; simpl in Hk; simplify_eq.
  - unfold norm_index. rewrite !decide_False by lia. done.
  - destruct (norm_index (length c) i0) as [n|e] eqn:Hn.
    + cbn [mbind res_bind]. apply (IH vs _ k i); [simpl in Hlen; lia|done|].
      by rewrite length_insert.
    + unfold norm_index in Hn. repeat case_decide; simplify_eq. done.
Qed.

(** ** Stage 2 *)

Lemma linspace_length (a b : R) (n : nat) : length (linspace a b n) = n.
Proof.
  destruct n as [|[|d]]; [done..|]. unfold linspace.
  rewrite length_insert, length_map, length_seq. done.
Qed.

Lemma linspace_lookup (a b : R) (n k : nat) :
  (2 ≤ n)%nat → (k < n)%nat →
  linspace a b n !! k = Some (a + INR k * ((b - a) / INR (n - 1)))%R.
Proof.
  intros Hn Hk. destruct n as [|[|d]]; [lia..|]. unfold linspace.
  replace (S (S d) - 1)%nat with (S d) by lia.
  assert (Hd : INR (S d) ≠ 0%R) by (apply not_0_INR; lia).
  destruct (decide (k = S d)) as [->|Hne].
  - rewrite list_lookup_insert_eq by (rewrite length_map, length_seq; lia).
    f_equal. field. done.
  - rewrite list_lookup_insert_ne by done.
    change (map ?f ?l) with (f <$> l).
    rewrite list_lookup_fmap, lookup_seq_lt by done.
    simpl. f_equal. lra.
Qed.

Lemma linspace_evenly_spaced (a b : R) (n : nat) :
  (n = 1%nat → a = b) → evenly_spaced a b (linspace a b n).
Proof.
  intros H1. destruct (decide (2 ≤ n)%nat) as [Hn|Hn].
  - exists ((b - a) / INR (n - 1))%R. split.
    + intros k x Hk. pose proof (lookup_lt_Some _ _ _ Hk) as Hlt.
      rewrite linspace_length in Hlt.
      rewrite linspace_lookup in Hk by done. by simplify_eq.
    + intros _. rewrite last_lookup, linspace_length.
      rewrite linspace_lookup by lia. f_equal.
      replace (Init.Nat.pred n) with (n - 1)%nat by lia.
      field. apply not_0_INR. lia.
  - exists 0%R. destruct n as [|[|n]]; [| |lia].
    + split; [by intros k x ?|done].
    + split.
      * intros [|k] x Hk; simpl in Hk; simplify_eq. simpl. lra.
      * intros _. simpl. f_equal. by apply H1.
Qed.

Lemma pow2_pos (x : R) : x ≠ 0%R → (0 < x ^ 2)%R.
Proof.
  intros H. destruct (Rtotal_order x 0) as [?|[?|?]]; [nra|done|nra].
Qed.

Lemma helix_turn_len_nonzero (r s : R) :
  r ≠ 0%R ∨ s ≠ 0%R → helix_turn_len r s ≠ 0%R.
Proof.
  intros H. unfold helix_turn_len.
  apply Rgt_not_eq, sqrt_lt_R0.
  pose proof PI_RGT_0 as Hpi.
  pose proof (pow2_ge_0 (2 * PI * r)) as H1.
  pose proof (pow2_ge_0 s) as H2.
  destruct H as [H | H].
  - assert (2 * PI * r ≠ 0)%R by (apply Rmult_integral_contrapositive_currified; lra).
    assert (0 < (2 * PI * r) ^ 2)%R by (by apply pow2_pos). lra.
  - assert (0 < s ^ 2)%R by (by apply pow2_pos). lra.
Qed.

Lemma helix_point_spec (r s phi : R) :
  helix_point r s phi = spec_helix_point r s phi.
Proof.
  unfold helix_point, spec_helix_point. f_equal.
  field. apply PI_neq0.
Qed.

Lemma helix_total_winding_spec (n : nat) (rho r s : R) :
  rho ≠ 0%R → r ≠ 0%R ∨ s ≠ 0%R →
  helix_total_winding n rho (helix_turn_len r s)
  = Ok (spec_winding n rho (spec_turn_len r s)).
Proof.
  intros Hrho HT%helix_turn_len_nonzero.
  unfold helix_total_winding. rewrite decide_False by done. f_equal.
  unfold spec_winding. change (spec_turn_len r s) with (helix_turn_len r s).
  rewrite minus_IZR, <- INR_IZR_INZ. field. done.
Qed.

(** C4.  With T = sqrt((2 pi r)^2 + s^2) and
    Phi = 2 pi (bb_len - 1) / (rho T), lines 45-69 succeed on a well-formed
    call, the bb_len phases are evenly spaced over [0, Phi], and the k-th
    backbone index holds the point
    (r sin phi_k, r cos phi_k, (phi_k / 2 pi) s) of the k-th phase. *)
Theorem backbone_on_helix (L : Z) (r s rho : R) (loops : list (Z * Z)) :
  0 ≤ L →
  ascending loops →
  Forall (λ l, 0 ≤ l.1 ∧ l.2 < L) loops →
  rho ≠ 0%R →
  r ≠ 0%R ∨ s ≠ 0%R →
  ∃ (bb_phases : list R) (coords : list vec3),
    backbone_stage L r s loops rho = Ok coords
    ∧ length coords = Z.to_nat L
    ∧ length bb_phases = length (bbidxs L loops)
    ∧ evenly_spaced 0
        (spec_winding (length (bbidxs L loops)) rho (spec_turn_len r s))
        bb_phases
    ∧ ∀ k idx phi,
        bbidxs L loops !! k = Some idx → bb_phases !! k = Some phi →
        coords !! Z.to_nat idx = Some (spec_helix_point r s phi).
Proof.
  intros HL Hasc Hrange Hrho HT.
  set (n := length (bbidxs L loops)).
  set (W := spec_winding n rho (spec_turn_len r s)).
  destruct (set_rows_in (bbidxs L loops)
              (map (helix_point r s) (linspace 0 W n))
              (replicate (Z.to_nat L) vzero))
    as (coords & Hset & Hlen & Hat & _).
  { intros i Hi. rewrite length_replicate, Z2Nat.id by done.
    by apply (bbidxs_in_range L loops). }
  { by rewrite length_map, linspace_length. }
  { by apply NoDup_bbidxs. }
  exists (linspace 0 W n), coords. repeat split.
  - unfold backbone_stage, np_zeros. rewrite decide_False by lia.
    cbn [mbind res_bind]. fold n.
    rewrite helix_total_winding_spec by done. exact Hset.
  - by rewrite Hlen, length_replicate.
  - apply linspace_length.
  - apply linspace_evenly_spaced. intros Hn. unfold W, spec_winding.
    rewrite Hn. simpl. unfold Rdiv. lra.
  - intros k idx phi Hk Hphi. apply (Hat k); [done|].
    change (map ?f ?l) with (f <$> l).
    rewrite list_lookup_fmap, Hphi. simpl. by rewrite helix_point_spec.
Qed.

Lemma backbone_on_helix_witness :
  ∃ (bb_phases : list R) (coords : list vec3),
    backbone_stage 10 1 2 [(2, 6)] 1 = Ok coords
    ∧ length coords = Z.to_nat 10
    ∧ length bb_phases = length (bbidxs 10 [(2, 6)])
    ∧ evenly_spaced 0
        (spec_winding (length (bbidxs 10 [(2, 6)])) 1 (spec_turn_len 1 2))
        bb_phases
    ∧ ∀ k idx phi,
        bbidxs 10 [(2, 6)] !! k = Some idx → bb_phases !! k = Some phi →
        coords !! Z.to_nat idx = Some (spec_helix_point 1 2 phi).
Proof.
  apply (backbone_on_helix 10 1 2 1 [(2, 6)]).
  - lia.
  - simpl. lia.
  - repeat constructor; simpl; lia.
  - lra.
  - left. lra.
Defined.

(** ** Stage 4 *)

Section ArmFacts.
Context {V : Type} (add : V → V → V).
Implicit Types (c : list V) (u : V) (s e : Z) (m j i : nat).

Lemma arm_loop_app s e u c (js ks : list nat) :
  arm_loop add s e u c (js ++ ks)
  = c' ← arm_loop add s e u c js; arm_loop add s e u c' ks.
Proof.
  revert c. induction js as [|j js IH]; intros c; [done|].
  cbn [app arm_loop]. destruct (arm_step add s e u c j); [apply IH | done].
Qed.

Lemma arm_steps_le s e m :
  s ≤ e → (m ≤ arm_steps s e)%nat ↔ 2 * Z.of_nat m ≤ e - s.
Proof. intros H. unfold arm_steps. Z.div_mod_to_equations. lia. Qed.

Lemma arm_value_start c s e u (a0 b0 : V) m j :
  0 ≤ s → c !! Z.to_nat s = Some a0 → (j ≤ m)%nat →
  s + Z.of_nat j < e - Z.of_nat m →
  arm_value add c s e u a0 b0 m (Z.to_nat (s + Z.of_nat j))
  = Some (steps_from add u j a0).
Proof.
  intros Hs Ha Hj Hlt. unfold arm_value.
  rewrite decide_False by lia. destruct j as [|j].
  - rewrite decide_False by lia.
    replace (Z.to_nat (s + Z.of_nat 0)) with (Z.to_nat s) by lia. done.
  - rewrite decide_True by lia. do 2 f_equal. lia.
Qed.

Lemma arm_value_end c s e u (a0 b0 : V) m j :
  0 ≤ s → c !! Z.to_nat e = Some b0 → (j ≤ m)%nat →
  s + Z.of_nat m < e →
  arm_value add c s e u a0 b0 m (Z.to_nat (e - Z.of_nat j))
  = Some (steps_from add u j b0).
Proof.
  intros Hs Hb Hj Hlt. unfold arm_value. destruct j as [|j].
  - rewrite !decide_False by lia.
    replace (Z.to_nat (e - Z.of_nat 0)) with (Z.to_nat e) by lia. done.
  - rewrite decide_True by lia. do 2 f_equal. lia.
Qed.

(** The state of the array after [m] iterations. *)
Lemma arm_loop_invariant c s e u (a0 b0 : V) :
  0 ≤ s → s ≤ e → e < Z.of_nat (length c) →
  c !! Z.to_nat s = Some a0 → c !! Z.to_nat e = Some b0 →
  ∀ m, (m ≤ arm_steps s e)%nat →
    ∃ cm, arm_loop add s e u c (seq 0 m) = Ok cm
          ∧ length cm = length c
          ∧ ∀ i, cm !! i = arm_value add c s e u a0 b0 m i.
Proof.
  intros Hs Hse He Ha Hb. induction m as [|m IH]; intros Hm.
  - exists c. repeat split; try done. intros i. unfold arm_value.
    by rewrite !decide_False by lia.
  - destruct IH as (cm & Hloop & Hlen & Hinv); [lia|].
    apply arm_steps_le in Hm; [|done].
    rewrite seq_S, arm_loop_app, Hloop. cbn [mbind res_bind plus arm_loop].
    unfold arm_step.
    rewrite (get_row_in cm _ (steps_from add u m a0));
      [|lia|rewrite Hinv; apply arm_value_start; (done || lia)].
    cbn [mbind res_bind]. rewrite set_row_in by lia. cbn [mbind res_bind].
    rewrite (get_row_in _ _ (steps_from add u m b0));
      [|lia|rewrite list_lookup_insert_ne by lia;
            rewrite Hinv; apply arm_value_end; (done || lia)].
    cbn [mbind res_bind]. rewrite set_row_in by (rewrite length_insert; lia).
    eexists. split; [reflexivity|]. split; [by rewrite !length_insert|].
    intros i.
    destruct (decide (i = Z.to_nat (e - Z.of_nat m - 1))) as [->|Hne1].
    { rewrite list_lookup_insert_eq by (rewrite length_insert; lia).
      unfold arm_value. rewrite decide_True by lia.
      replace (Z.to_nat (e - Z.of_nat (Z.to_nat (e - Z.of_nat m - 1))))
        with (S m) by lia.
      done. }
    rewrite list_lookup_insert_ne by done.
    destruct (decide (i = Z.to_nat (s + Z.of_nat m + 1))) as [->|Hne2].
    { rewrite list_lookup_insert_eq by lia.
      unfold arm_value. rewrite decide_False by lia.
      rewrite decide_True by lia.
      replace (Z.to_nat (Z.of_nat (Z.to_nat (s + Z.of_nat m + 1)) - s))
        with (S m) by lia.
      done. }
    rewrite list_lookup_insert_ne by done. rewrite Hinv.
    unfold arm_value. repeat case_decide; try lia; done.
Qed.
End ArmFacts.

Lemma place_arms_state {V} (add : V → V → V) (c : list V) (s e : Z)
    (u a0 b0 : V) :
  0 ≤ s → s < e → e < Z.of_nat (length c) →
  c !! Z.to_nat s = Some a0 → c !! Z.to_nat e = Some b0 →
  ∃ c', place_arms add c s e u = Ok c'
        ∧ length c' = length c
        ∧ ∀ i, c' !! i = arm_value add c s e u a0 b0 (arm_steps s e) i.
Proof.
  intros Hs Hse He Ha Hb. unfold place_arms.
  apply (arm_loop_invariant add c s e u a0 b0); (done || lia).
Qed.

(** C6, as the code has it.  A loop with anchors 0 <= start < end < L and
    n = end - start - 1 interior particles gets floor((end - start) / 2)
    = floor((n + 1) / 2) steps from each anchor (floor(n / 2) when n is
    even).  In the resulting array coords[start+j+1] = coords[start+j] + u
    for every j < floor(n / 2), and coords[end-j-1] = coords[end-j] + u for
    every step j of the end-side arm. *)
Theorem arms_advance_by_u {V} (add : V → V → V) (c : list V) (s e : Z)
    (u : V) :
  0 ≤ s → s < e → e < Z.of_nat (length c) →
  Z.of_nat (arm_steps s e) = (e - s - 1 + 1) `div` 2
  ∧ (Z.even (e - s - 1) = true →
     Z.of_nat (arm_steps s e) = (e - s - 1) `div` 2)
  ∧ ∃ c', place_arms add c s e u = Ok c'
      ∧ length c' = length c
      ∧ (∀ j : nat, Z.of_nat j < (e - s - 1) `div` 2 →
           ∃ x, c' !! Z.to_nat (s + Z.of_nat j) = Some x
                ∧ c' !! Z.to_nat (s + Z.of_nat j + 1) = Some (add x u))
      ∧ (∀ j : nat, (j < arm_steps s e)%nat →
           ∃ y, c' !! Z.to_nat (e - Z.of_nat j) = Some y
                ∧ c' !! Z.to_nat (e - Z.of_nat j - 1) = Some (add y u)).
Proof.
  intros Hs Hse He.
  assert (HK : Z.of_nat (arm_steps s e) = (e - s) `div` 2).
  { unfold arm_steps. rewrite Z2Nat.id; [done|].
    apply Z.div_pos; lia. }
  split; [rewrite HK; f_equal; lia|]. split.
  { intros Heven. rewrite HK.
    rewrite Z.even_spec in Heven. destruct Heven as [h Hh].
    Z.div_mod_to_equations. lia. }
  destruct (lookup_lt_is_Some_2 c (Z.to_nat s)) as [a0 Ha]; [lia|].
  destruct (lookup_lt_is_Some_2 c (Z.to_nat e)) as [b0 Hb]; [lia|].
  destruct (place_arms_state add c s e u a0 b0) as (c' & Hrun & Hlen & Hst);
    try done.
  exists c'. repeat split; try done.
  - intros j Hj. exists (steps_from add u j a0).
    assert (Z.of_nat j + 1 + Z.of_nat (arm_steps s e) < e - s
            ∧ Z.of_nat j + 1 ≤ Z.of_nat (arm_steps s e)) as [? ?]
      by (rewrite HK; Z.div_mod_to_equations; lia).
    rewrite !Hst. split.
    + apply arm_value_start; (done || lia).
    + replace (s + Z.of_nat j + 1) with (s + Z.of_nat (S j)) by lia.
      change (add (steps_from add u j a0) u) with (steps_from add u (S j) a0).
      apply arm_value_start; (done || lia).
  - intros j Hj. exists (steps_from add u j b0).
    assert (2 * Z.of_nat (arm_steps s e) ≤ e - s)
      by (rewrite HK; Z.div_mod_to_equations; lia).
    rewrite !Hst. split.
    + apply arm_value_end; (done || lia).
    + replace (e - Z.of_nat j - 1) with (e - Z.of_nat (S j)) by lia.
      change (add (steps_from add u j b0) u) with (steps_from add u (S j) b0).
      apply arm_value_end; (done || lia).
Qed.

(** C10.  For a loop with anchors 0 <= start < end < L whose interior
    length n = end - start - 1 is odd, the inner loop runs (n + 1) / 2
    iterations; in the last one, j, both writes go to the middle index
    start + j + 1 = end - j - 1, and the array ends with the end-side
    value there: coords[end-j] + u, which is (n + 1) / 2 steps of u away
    from the end anchor. *)
Theorem odd_loop_middle_from_end (V : Type) (add : V → V → V) (c : list V)
    (s e : Z) (u b0 : V) :
  0 ≤ s → s < e → e < Z.of_nat (length c) →
  Z.odd (e - s - 1) = true →
  c !! Z.to_nat e = Some b0 →
  let k := arm_steps s e in
  let j := Z.of_nat (k - 1) in
  Z.of_nat k = (e - s) `div` 2
  ∧ 2 * Z.of_nat k = (e - s - 1) + 1
  ∧ s + j + 1 = e - j - 1
  ∧ 2 * (s + j + 1) = s + e
  ∧ ∃ c' y, place_arms add c s e u = Ok c'
      ∧ c' !! Z.to_nat (e - j) = Some y
      ∧ c' !! Z.to_nat (e - j - 1) = Some (add y u)
      ∧ c' !! Z.to_nat (e - j - 1) = Some (steps_from add u k b0).
Proof.
  intros Hs Hse He Hodd Hb k j.
  assert (HK : Z.of_nat k = (e - s) `div` 2).
  { unfold k, arm_steps. rewrite Z2Nat.id; [done|]. apply Z.div_pos; lia. }
  assert (H2 : 2 * Z.of_nat k = e - s).
  { rewrite HK. rewrite Z.odd_spec in Hodd. destruct Hodd as [h Hh].
    Z.div_mod_to_equations. lia. }
  assert (Hk1 : (1 ≤ k)%nat) by lia.
  assert (Hj : j = Z.of_nat k - 1) by (unfold j; lia).
  split; [done|]. split; [lia|]. split; [lia|]. split; [lia|].
  destruct (lookup_lt_is_Some_2 c (Z.to_nat s)) as [a0 Ha]; [lia|].
  destruct (place_arms_state add c s e u a0 b0) as (c' & Hrun & Hlen & Hst);
    try done.
  exists c', (steps_from add u (k - 1) b0).
  assert (Hend : c' !! Z.to_nat (e - j - 1) = Some (steps_from add u k b0)).
  { rewrite Hst. fold k.
    replace (e - j - 1) with (e - Z.of_nat k) by lia.
    apply arm_value_end; (done || lia). }
  repeat split; try done.
  - rewrite Hst. fold k. apply arm_value_end; (done || lia).
  - rewrite Hend. replace k with (S (k - 1)) at 1 by lia. done.
Qed.

(** The loop (2, 6) of the worked example on integer rows: two iterations,
    the middle row 4 written twice. *)
Example place_arms_example :
  place_arms Z.add [0; 0; 10; 0; 0; 0; 20; 0; 0; 0] 2 6 1
  = Ok [0; 0; 10; 11; 22; 21; 20; 0; 0; 0].
Proof. vm_compute. reflexivity. Qed.

(** C6 as stated fails on the loop (2, 6): n = 3, floor(n / 2) = 1, but
    the inner loop runs twice, and the start-side bond from row 3 to row 4
    of the result is 22 - 11, not u = 1. *)
Lemma arm_steps_odd_counterexample :
  arm_steps 2 6 ≠ Z.to_nat ((6 - 2 - 1) `div` 2)
  ∧ ∃ c', place_arms Z.add [0; 0; 10; 0; 0; 0; 20; 0; 0; 0] 2 6 1 = Ok c'
          ∧ c' !! 3%nat = Some 11 ∧ c' !! 4%nat = Some 22
          ∧ 22 ≠ 11 + 1.
Proof.
  split; [vm_compute; lia|].
  exists [0; 0; 10; 11; 22; 21; 20; 0; 0; 0].
  split; [vm_compute; reflexivity|]. repeat split; lia.
Qed.

Lemma arms_advance_by_u_witness :
  (0 ≤ 2 ∧ 2 < 6 ∧ 6 < Z.of_nat (length [0; 0; 10; 0; 0; 0; 20; 0; 0; 0]))
  ∧ Z.of_nat (arm_steps 2 6) = (6 - 2 - 1 + 1) `div` 2
  ∧ (Z.even (6 - 2 - 1) = true →
     Z.of_nat (arm_steps 2 6) = (6 - 2 - 1) `div` 2)
  ∧ ∃ c', place_arms Z.add [0; 0; 10; 0; 0; 0; 20; 0; 0; 0] 2 6 1 = Ok c'
      ∧ length c' = length [0; 0; 10; 0; 0; 0; 20; 0; 0; 0]
      ∧ (∀ j : nat, Z.of_nat j < (6 - 2 - 1) `div` 2 →
           ∃ x, c' !! Z.to_nat (2 + Z.of_nat j) = Some x
                ∧ c' !! Z.to_nat (2 + Z.of_nat j + 1) = Some (x + 1))
      ∧ (∀ j : nat, (j < arm_steps 2 6)%nat →
           ∃ y, c' !! Z.to_nat (6 - Z.of_nat j) = Some y
                ∧ c' !! Z.to_nat (6 - Z.of_nat j - 1) = Some (y + 1)).
Proof.
  split; [simpl; lia|].
  apply (arms_advance_by_u Z.add [0; 0; 10; 0; 0; 0; 20; 0; 0; 0] 2 6 1);
    simpl; lia.
Defined.

Lemma odd_loop_middle_from_end_witness :
  (0 ≤ 2 ∧ 2 < 6 ∧ 6 < Z.of_nat (length [0; 0; 10; 0; 0; 0; 20; 0; 0; 0])
   ∧ Z.odd (6 - 2 - 1) = true
   ∧ [0; 0; 10; 0; 0; 0; 20; 0; 0; 0] !! Z.to_nat 6 = Some 20)
  ∧ Z.of_nat (arm_steps 2 6) = (6 - 2) `div` 2
  ∧ 2 * Z.of_nat (arm_steps 2 6) = (6 - 2 - 1) + 1
  ∧ 2 + Z.of_nat (arm_steps 2 6 - 1) + 1 = 6 - Z.of_nat (arm_steps 2 6 - 1) - 1
  ∧ 2 * (2 + Z.of_nat (arm_steps 2 6 - 1) + 1) = 2 + 6
  ∧ ∃ c' y, place_arms Z.add [0; 0; 10; 0; 0; 0; 20; 0; 0; 0] 2 6 1 = Ok c'
      ∧ c' !! Z.to_nat (6 - Z.of_nat (arm_steps 2 6 - 1)) = Some y
      ∧ c' !! Z.to_nat (6 - Z.of_nat (arm_steps 2 6 - 1) - 1) = Some (y + 1)
      ∧ c' !! Z.to_nat (6 - Z.of_nat (arm_steps 2 6 - 1) - 1)
        = Some (steps_from Z.add 1 (arm_steps 2 6) 20).
Proof.
  split; [repeat split; simpl; lia|].
  apply (odd_loop_middle_from_end Z Z.add [0; 0; 10; 0; 0; 0; 20; 0; 0; 0]
           2 6 1 20); (reflexivity || (simpl; lia)).
Defined.

(** ** The whole call *)

Lemma get_rows_in_range {V} (c : list V) (idxs : list Z) :
  Forall (λ i, - Z.of_nat (length c) ≤ i < Z.of_nat (length c)) idxs →
  ∃ rows, get_rows c idxs = Ok rows.
Proof.
  induction 1 as [|i rest Hi _ [rows IH]]; [by exists []|].
  cbn [get_rows]. unfold get_row.
  destruct (norm_index (length c) i) as [k|err] eqn:Hk.
  - apply norm_index_lt in Hk as [Hk _].
    destruct (lookup_lt_is_Some_2 c k Hk) as [v Hv].
    cbn [mbind res_bind]. rewrite Hv, IH. by eexists.
  - unfold norm_index in Hk. repeat case_decide; (done || lia).
Qed.

Lemma set_rows_in_range {V} (idxs : list Z) :
  ∀ (vals c : list V),
    Forall (λ i, - Z.of_nat (length c) ≤ i < Z.of_nat (length c)) idxs →
    ∃ c', set_rows c idxs vals = Ok c' ∧ length c' = length c.
Proof.
  induction idxs as [|i rest IH]; intros vals c Hall; [by exists c|].
  destruct vals as [|v vs]; [by exists c|].
  apply Forall_cons in Hall as [Hi Hall]. cbn [set_rows]. unfold set_row.
  destruct (norm_index (length c) i) as [k|err] eqn:Hk.
  - cbn [mbind res_bind].
    destruct (IH vs (<[k := v]> c)) as (c' & Hc' & Hlen).
    { by rewrite length_insert. }
    exists c'. by rewrite length_insert in Hlen.
  - unfold norm_index in Hk. repeat case_decide; (done || lia).
Qed.

Lemma backbone_stage_outcome (L : Z) (r s rho : R) (loops : list (Z * Z)) :
  (L < 0 → backbone_stage L r s loops rho = Raise ValueError)
  ∧ (0 ≤ L → rho = 0%R →
     backbone_stage L r s loops rho = Raise ZeroDivisionError)
  ∧ (0 ≤ L → rho ≠ 0%R → ¬ backbone_fits L loops →
     backbone_stage L r s loops rho = Raise IndexError)
  ∧ (0 ≤ L → rho ≠ 0%R → backbone_fits L loops →
     ∃ coords, backbone_stage L r s loops rho = Ok coords
               ∧ length coords = Z.to_nat L).
Proof.
  unfold backbone_stage, np_zeros, helix_total_winding, backbone_fits.
  destruct (decide (L < 0)) as [HL|HL];
    [repeat split; (done || lia)|].
  cbn [mbind res_bind].
  destruct (decide (rho = 0%R)) as [Hrho|Hrho];
    [repeat split; (done || lia)|].
  cbn [mbind res_bind]. repeat split; try (done || lia).
  - intros _ _ Hfit.
    apply not_Forall_Exists in Hfit; [|intros i; apply _].
    apply Exists_exists in Hfit as (i & Hi & Hout).
    apply list_elem_of_lookup in Hi as [k Hk].
    apply (set_rows_out _ _ _ k i); [|done|].
    + by rewrite length_map, linspace_length.
    + rewrite length_replicate, Z2Nat.id by lia. done.
  - intros _ _ Hfit.
    edestruct (set_rows_in_range (V := vec3) (bbidxs L loops))
      as (c' & Hc' & Hlen); [|exists c'; split; [exact Hc'|]].
    + rewrite length_replicate, Z2Nat.id by lia. exact Hfit.
    + by rewrite Hlen, length_replicate.
Qed.

(** The jitter statement never completes: with readable target rows it
    stops at the name [kwargs]. *)
Lemma jitter_stage_outcome (coords : list vec3) (idxs : list Z) (g : rng) :
  Forall (λ i, - Z.of_nat (length coords) ≤ i < Z.of_nat (length coords))
         idxs →
  (jitter_stage coords idxs g).1 = Raise (NameError "kwargs").
Proof.
  intros Hall. destruct (get_rows_in_range coords idxs Hall) as [rows Hrows].
  unfold jitter_stage, lift, np_random, unbound_name, mbind, M_bind.
  rewrite Hrows. reflexivity.
Qed.

(** What every call ends in. *)
Lemma make_helical_loopbrush_outcome (L : Z) (r s : R)
    (loops : list (Z * Z)) (rho : R) (flag : bool) (shift : R) (g : rng) :
  (make_helical_loopbrush L r s loops rho flag shift g).1
  = if decide (L < 0) then Raise ValueError
    else if decide (rho = 0%R) then Raise ZeroDivisionError
    else if decide (backbone_fits L loops) then Raise (NameError "kwargs")
    else Raise IndexError.
Proof.
  destruct (backbone_stage_outcome L r s rho loops)
    as (Hneg & Hzero & Hout & Hin).
  unfold make_helical_loopbrush.
  unfold mbind at 1 2. unfold M_bind, lift.
  repeat case_decide.
  - by rewrite Hneg.
  - by rewrite Hzero by (done || lia).
  - destruct Hin as (coords & -> & Hlen); [lia|done|done|].
    pose proof (jitter_stage_outcome coords (bbidxs L loops) g) as Hj.
    destruct (jitter_stage coords (bbidxs L loops) g) as [[c|e] g'].
    + simpl in Hj. exfalso.
      assert (Ok c = Raise (NameError "kwargs")); [|done].
      apply Hj. rewrite Hlen, Z2Nat.id by lia. done.
    + simpl in *. apply Hj. rewrite Hlen, Z2Nat.id by lia. done.
  - by rewrite Hout by (done || lia).
Qed.

(** ** Stage 3 *)

Lemma sumsq_nonneg (a : vec3) : (0 <= sumsq a)%R.
Proof. unfold sumsq. nra. Qed.

Lemma vnorm_normalize (m : vec3) :
  sumsq m ≠ 0%R → vnorm (normalize m) = 1%R.
Proof.
  intros Hm. pose proof (sumsq_nonneg m) as H0.
  assert (Hk : (0 < vnorm m)%R) by (apply sqrt_lt_R0; lra).
  assert (Hkk : (vnorm m * vnorm m)%R = sumsq m)
    by (apply sqrt_sqrt; done).
  unfold normalize. set (k := vnorm m) in *.
  unfold vnorm at 1.
  replace (sumsq (vdiv m k)) with 1%R; [apply sqrt_1|].
  unfold sumsq, vdiv in *. simpl. field_simplify_eq; [|lra].
  nra.
Qed.

(** C7.  In anchored mode, for two anchors whose midpoint is off the helix
    axis, u is the midpoint of the anchors with its third component forced
    to 0, normalized; u has unit length and no component along the axis. *)
Theorem anchored_direction_radial_unit (a b : vec3) :
  (vx a + vx b)%R ≠ 0%R ∨ (vy a + vy b)%R ≠ 0%R →
  anchored_direction a b = spec_direction a b
  ∧ vnorm (anchored_direction a b) = 1%R
  ∧ vz (anchored_direction a b) = 0%R.
Proof.
  intros Hoff. repeat split.
  - unfold anchored_direction, spec_direction, spec_midpoint, normalize,
      vnorm, sumsq, vdiv, set_z, vadd. cbn [vx vy vz].
    rewrite <- !Rsqr_pow2. unfold Rsqr. reflexivity.
  - apply vnorm_normalize. unfold sumsq, set_z, vdiv, vadd. simpl.
    apply Rgt_not_eq.
    set (X := ((vx a + vx b) / 2)%R). set (Y := ((vy a + vy b) / 2)%R).
    assert (0 <= X * X)%R by nra. assert (0 <= Y * Y)%R by nra.
    destruct Hoff as [Hx | Hy].
    + assert (HX : X ≠ 0%R) by (unfold X; lra).
      pose proof (pow2_pos _ HX). lra.
    + assert (HY : Y ≠ 0%R) by (unfold Y; lra).
      pose proof (pow2_pos _ HY). lra.
  - unfold anchored_direction, normalize, vdiv, set_z. simpl.
    unfold Rdiv. ring.
Qed.

Lemma anchored_direction_radial_unit_witness :
  ((vx (V3 1 0 0) + vx (V3 0 1 2))%R ≠ 0%R
   ∨ (vy (V3 1 0 0) + vy (V3 0 1 2))%R ≠ 0%R)
  ∧ anchored_direction (V3 1 0 0) (V3 0 1 2)
    = spec_direction (V3 1 0 0) (V3 0 1 2)
  ∧ vnorm (anchored_direction (V3 1 0 0) (V3 0 1 2)) = 1%R
  ∧ vz (anchored_direction (V3 1 0 0) (V3 0 1 2)) = 0%R.
Proof.
  assert (H : (vx (V3 1 0 0) + vx (V3 0 1 2))%R ≠ 0%R
              ∨ (vy (V3 1 0 0) + vy (V3 0 1 2))%R ≠ 0%R)
    by (left; simpl; lra).
  split; [exact H | apply (anchored_direction_radial_unit _ _ H)].
Defined.

(** [looplens[i]] is the distance between the anchors of loop [i], so the
    inner loop of that loop runs [arm_steps] times. *)
Lemma looplens_lookup (loops : list (Z * Z)) (i : nat) (l : Z * Z) :
  loops !! i = Some l →
  looplens loops !! i = Some (Z.max l.1 l.2 - Z.min l.1 l.2)
  ∧ arm_steps (Z.min l.1 l.2) (Z.max l.1 l.2)
    = Z.to_nat ((Z.max l.1 l.2 - Z.min l.1 l.2) `div` 2).
Proof.
  intros Hl. split; [|reflexivity].
  unfold looplens, loopends, loopstarts.
  change (map ?f ?x) with (f <$> x).
  rewrite lookup_zip_with, !list_lookup_fmap, Hl. reflexivity.
Qed.

(** The loop statement stops at its first line, which reads the name
    [random_loop_orientation]; the parameter is spelled
    [random_loop_orientations]. *)
Lemma loop_body_outcome (coords : list vec3) (loop : Z * Z) (g : rng) :
  (loop_body coords loop g).1 = Raise (NameError "random_loop_orientation").
Proof. reflexivity. Qed.

(** ** Outcomes of concrete calls *)

Lemma backbone_fits_example : backbone_fits 10 [(2, 6)].
Proof.
  unfold backbone_fits. rewrite bbidxs_example.
  repeat (constructor; [lia|]). constructor.
Qed.

Lemma backbone_fits_no_loops (L : Z) : backbone_fits L [].
Proof.
  unfold backbone_fits. apply Forall_forall. intros i Hi%elem_of_arange. lia.
Qed.

Lemma backbone_fits_overlapping : backbone_fits 10 [(1, 5); (3, 8)].
Proof.
  unfold backbone_fits.
  change (bbidxs 10 [(1, 5); (3, 8)]) with [0; 1; 8; 9].
  repeat (constructor; [lia|]). constructor.
Qed.

Lemma backbone_overflows : ¬ backbone_fits 3 [(5, 7)].
Proof.
  unfold backbone_fits.
  change (bbidxs 3 [(5, 7)]) with [0; 1; 2; 3; 4; 5].
  intros Hall. rewrite Forall_forall in Hall.
  assert (3 ∈ [0; 1; 2; 3; 4; 5]) as Hin by (do 3 right; left).
  specialize (Hall 3 Hin). lia.
Qed.

Ltac outcome :=
  rewrite make_helical_loopbrush_outcome;
  repeat case_decide; try done; try lia; try lra.

(** C1 fails on the code: the worked example, L = 10 with the loop (2, 6)
    and the default options, returns no array; the call ends in the name
    error for [kwargs]. *)
Theorem worked_example_raises (g : rng) :
  (make_helical_loopbrush 10 1 2 [(2, 6)] 1 false 0 g).1
  = Raise (NameError "kwargs").
Proof. outcome. by pose proof backbone_fits_example. Qed.

(** C2, as the code has it.  No call returns a coordinate array.  A call
    that gets as far as the jitter statement (L >= 0, a nonzero linear
    density, every backbone index within [-L, L)) raises the name error
    for [kwargs] there. *)
Theorem call_never_returns (L : Z) (r s : R) (loops : list (Z * Z))
    (rho : R) (flag : bool) (shift : R) (g : rng) :
  (∀ coords,
     (make_helical_loopbrush L r s loops rho flag shift g).1 ≠ Ok coords)
  ∧ (0 ≤ L → rho ≠ 0%R → backbone_fits L loops →
     (make_helical_loopbrush L r s loops rho flag shift g).1
     = Raise (NameError "kwargs")).
Proof.
  split.
  - intros coords. outcome.
  - intros HL Hrho Hfit. outcome.
Qed.

Lemma call_never_returns_witness :
  (0 ≤ 10 ∧ 1%R ≠ 0%R ∧ backbone_fits 10 [(2, 6)])
  ∧ (make_helical_loopbrush 10 1 2 [(2, 6)] 1 false 0 (λ _, 0%R)).1
    = Raise (NameError "kwargs").
Proof.
  assert (H0 : 0 ≤ 10) by lia.
  assert (H1 : 1%R ≠ 0%R) by lra.
  split; [repeat split; (done || apply backbone_fits_example)|].
  exact (proj2 (call_never_returns 10 1 2 [(2, 6)] 1 false 0 (λ _, 0%R))
               H0 H1 backbone_fits_example).
Defined.

(** C2 as stated fails for the loop (5, 7) on a chain of 3 particles: the
    helix assignment raises the index error before the jitter statement. *)
Lemma index_error_before_jitter :
  (make_helical_loopbrush 3 1 1 [(5, 7)] 1 false 0 (λ _, 0%R)).1
  = Raise IndexError
  ∧ (make_helical_loopbrush 3 1 1 [(5, 7)] 1 false 0 (λ _, 0%R)).1
    ≠ Raise (NameError "kwargs").
Proof.
  assert ((make_helical_loopbrush 3 1 1 [(5, 7)] 1 false 0 (λ _, 0%R)).1
          = Raise IndexError) as H.
  { outcome. by pose proof backbone_overflows. }
  split; [exact H | by rewrite H].
Qed.

(** C3, as the code has it.  No call raises InvalidLoopSpecification: the
    loop list is not validated.  A backbone index outside [-L, L) makes
    the helix assignment raise the index error (for L >= 0 and a nonzero
    linear density). *)
Theorem loops_not_validated (L : Z) (r s : R) (loops : list (Z * Z))
    (rho : R) (flag : bool) (shift : R) (g : rng) :
  (make_helical_loopbrush L r s loops rho flag shift g).1
  ≠ Raise InvalidLoopSpecification
  ∧ (0 ≤ L → rho ≠ 0%R → ¬ backbone_fits L loops →
     backbone_stage L r s loops rho = Raise IndexError
     ∧ (make_helical_loopbrush L r s loops rho flag shift g).1
       = Raise IndexError).
Proof.
  split; [outcome|]. intros HL Hrho Hfit. split.
  - by apply backbone_stage_outcome.
  - outcome.
Qed.

Lemma loops_not_validated_witness :
  (0 ≤ 3 ∧ 1%R ≠ 0%R ∧ ¬ backbone_fits 3 [(5, 7)])
  ∧ backbone_stage 3 1 1 [(5, 7)] 1 = Raise IndexError
  ∧ (make_helical_loopbrush 3 1 1 [(5, 7)] 1 false 0 (λ _, 0%R)).1
    = Raise IndexError.
Proof.
  assert (H0 : 0 ≤ 3) by lia.
  assert (H1 : 1%R ≠ 0%R) by lra.
  split; [repeat split; (done || apply backbone_overflows)|].
  exact (proj2 (loops_not_validated 3 1 1 [(5, 7)] 1 false 0 (λ _, 0%R))
               H0 H1 backbone_overflows).
Defined.

(** C3 as stated fails for the overlapping loops (1, 5), (3, 8) on a chain
    of 10: the resolver accepts them (backbone 0, 1, 8, 9) and the call
    ends as every other one, in the name error. *)
Lemma overlapping_loops_accepted :
  bbidxs 10 [(1, 5); (3, 8)] = [0; 1; 8; 9]
  ∧ (make_helical_loopbrush 10 1 2 [(1, 5); (3, 8)] 1 false 0 (λ _, 0%R)).1
    = Raise (NameError "kwargs")
  ∧ (make_helical_loopbrush 10 1 2 [(1, 5); (3, 8)] 1 false 0 (λ _, 0%R)).1
    ≠ Raise InvalidLoopSpecification.
Proof.
  assert ((make_helical_loopbrush 10 1 2 [(1, 5); (3, 8)] 1 false 0
             (λ _, 0%R)).1 = Raise (NameError "kwargs")) as H.
  { outcome. by pose proof backbone_fits_overlapping. }
  split; [reflexivity|]. split; [exact H | by rewrite H].
Qed.

(** C8 fails on the code: whatever jitter magnitude is passed, the default
    0 included, a chain of 4 particles without loops gets no positions;
    the call ends in the name error for [kwargs]. *)
Theorem jitter_raises (shift : R) (g : rng) :
  (make_helical_loopbrush 4 1 1 [] 1 false shift g).1
  = Raise (NameError "kwargs").
Proof. outcome. by pose proof (backbone_fits_no_loops 4). Qed.

(** C9, as the code has it.  No call raises InvalidParameter: no
    parameter is validated.  Lines 45-69 accept every helix radius and
    helix step, positive or not, and every nonzero linear density,
    negative ones included: for L >= 0 and backbone indices within
    [-L, L) they complete with the L-row array.  A zero linear density
    raises ZeroDivisionError at the winding quotient of line 62 (for
    L >= 0).  The length of a loop's direction vector is not checked:
    for any two anchor rows, on the axis or not, lines 79-85 and 75-85
    place the arms with whatever the normalisation yields. *)
Theorem parameters_not_validated (L : Z) (r s : R) (loops : list (Z * Z))
    (rho : R) (flag : bool) (shift : R) (g : rng) :
  (make_helical_loopbrush L r s loops rho flag shift g).1
  ≠ Raise InvalidParameter
  ∧ (0 ≤ L → rho ≠ 0%R → backbone_fits L loops →
     ∃ coords, backbone_stage L r s loops rho = Ok coords
               ∧ length coords = Z.to_nat L)
  ∧ (0 ≤ L → rho = 0%R →
     backbone_stage L r s loops rho = Raise ZeroDivisionError
     ∧ (make_helical_loopbrush L r s loops rho flag shift g).1
       = Raise ZeroDivisionError)
  ∧ (∀ (coords : list vec3) (lo hi : Z) (a b p : vec3),
       0 ≤ lo → lo < hi → hi < Z.of_nat (length coords) →
       coords !! Z.to_nat lo = Some a → coords !! Z.to_nat hi = Some b →
       (∃ coords',
          place_arms vadd coords lo hi (anchored_direction a b) = Ok coords'
          ∧ length coords' = length coords)
       ∧ (∃ coords',
            place_arms vadd coords lo hi (random_direction a b p)
            = Ok coords'
            ∧ length coords' = length coords)).
Proof.
  split; [outcome|]. split; [apply backbone_stage_outcome|]. split.
  - intros HL Hrho. split; [by apply backbone_stage_outcome | outcome].
  - intros coords lo hi a b p Hlo Hlt Hhi Ha Hb. split.
    + destruct (place_arms_state vadd coords lo hi (anchored_direction a b)
                  a b) as (c' & Hrun & Hlen & _); try done.
      by exists c'.
    + destruct (place_arms_state vadd coords lo hi (random_direction a b p)
                  a b) as (c' & Hrun & Hlen & _); try done.
      by exists c'.
Qed.

Lemma parameters_not_validated_witness :
  ((0 ≤ 10 ∧ (-1)%R ≠ 0%R ∧ backbone_fits 10 [(2, 6)])
   ∧ ∃ coords, backbone_stage 10 (-1) 0 [(2, 6)] (-1) = Ok coords
               ∧ length coords = Z.to_nat 10)
  ∧ ((0 ≤ 10 ∧ 0%R = 0%R)
     ∧ backbone_stage 10 1 2 [(2, 6)] 0 = Raise ZeroDivisionError
     ∧ (make_helical_loopbrush 10 1 2 [(2, 6)] 0 false 0 (λ _, 0%R)).1
       = Raise ZeroDivisionError)
  ∧ ((0 ≤ 0 ∧ 0 < 3 ∧ 3 < Z.of_nat (length [vzero; vzero; vzero; vzero])
      ∧ [vzero; vzero; vzero; vzero] !! Z.to_nat 0 = Some vzero
      ∧ [vzero; vzero; vzero; vzero] !! Z.to_nat 3 = Some vzero)
     ∧ (∃ coords',
          place_arms vadd [vzero; vzero; vzero; vzero] 0 3
            (anchored_direction vzero vzero) = Ok coords'
          ∧ length coords' = length [vzero; vzero; vzero; vzero])
     ∧ (∃ coords',
          place_arms vadd [vzero; vzero; vzero; vzero] 0 3
            (random_direction vzero vzero vzero) = Ok coords'
          ∧ length coords' = length [vzero; vzero; vzero; vzero])).
Proof.
  assert (H0 : 0 ≤ 10) by lia.
  assert (H1 : (-1)%R ≠ 0%R) by lra.
  assert (H2 : 0 ≤ 0) by lia.
  assert (H3 : 0 < 3) by lia.
  assert (H4 : 3 < Z.of_nat (length [vzero; vzero; vzero; vzero]))
    by (simpl; lia).
  split; [split; [repeat split; (done || apply backbone_fits_example)|]|].
  { exact (proj1 (proj2 (parameters_not_validated 10 (-1) 0 [(2, 6)] (-1)
                           false 0 (λ _, 0%R)))
                 H0 H1 backbone_fits_example). }
  split; [split; [done|]|].
  { exact (proj1 (proj2 (proj2 (parameters_not_validated 10 1 2 [(2, 6)] 0
                                  false 0 (λ _, 0%R))))
                 H0 eq_refl). }
  split; [repeat split; (done || lia)|].
  exact (proj2 (proj2 (proj2 (parameters_not_validated 10 1 2 [(2, 6)] 0
                                false 0 (λ _, 0%R))))
               [vzero; vzero; vzero; vzero] 0 3 vzero vzero vzero
               H2 H3 H4 eq_refl eq_refl).
Defined.

(** C9 as stated fails for a negative radius, a zero step and a negative
    linear density: the call ends in the name error, as with valid
    parameters. *)
Lemma bad_parameters_accepted :
  (make_helical_loopbrush 10 (-1) 0 [(2, 6)] (-1) false 0 (λ _, 0%R)).1
  = Raise (NameError "kwargs")
  ∧ (make_helical_loopbrush 10 (-1) 0 [(2, 6)] (-1) false 0 (λ _, 0%R)).1
    ≠ Raise InvalidParameter.
Proof.
  assert ((make_helical_loopbrush 10 (-1) 0 [(2, 6)] (-1) false 0
             (λ _, 0%R)).1 = Raise (NameError "kwargs")) as H.
  { outcome. by pose proof backbone_fits_example. }
  split; [exact H | by rewrite H].
Qed.

(** * Further properties *)

(** ** The backbone on the helix, particle by particle *)

Lemma bb_phase_lookup (n k : nat) (rho T : R) :
  rho ≠ 0%R → T ≠ 0%R → (k < n)%nat →
  linspace 0 (2 * PI * IZR (Z.of_nat n - 1) / rho / T) n !! k
  = Some (INR k * (2 * PI / (rho * T)))%R.
Proof.
  intros Hrho HT Hk. destruct (decide (2 ≤ n)%nat) as [Hn|Hn].
  - rewrite linspace_lookup by done. f_equal.
    rewrite minus_IZR, <- INR_IZR_INZ, minus_INR by lia.
    assert (2 <= INR n)%R by (apply (le_INR 2); lia).
    simpl (INR 1). simpl (IZR 1). field. repeat split; (done || lra).
  - assert (n = 1%nat) as -> by lia. assert (k = 0%nat) as -> by lia.
    simpl. f_equal. lra.
Qed.

Lemma backbone_stage_rows (L : Z) (r s rho : R) (loops : list (Z * Z)) :
  0 ≤ L →
  ascending loops →
  Forall (λ l, 0 ≤ l.1 ∧ l.2 < L) loops →
  rho ≠ 0%R →
  r ≠ 0%R ∨ s ≠ 0%R →
  ∃ coords : list vec3,
    backbone_stage L r s loops rho = Ok coords
    ∧ length coords = Z.to_nat L
    ∧ (∀ k idx, bbidxs L loops !! k = Some idx →
         coords !! Z.to_nat idx
         = Some (helix_point r s
                   (INR k * (2 * PI / (rho * helix_turn_len r s)))))
    ∧ (∀ j, (j < Z.to_nat L)%nat → Z.of_nat j ∉ bbidxs L loops →
         coords !! j = Some vzero).
Proof.
  intros HL Hasc Hrange Hrho HT%helix_turn_len_nonzero.
  set (n := length (bbidxs L loops)).
  set (W := (2 * PI * IZR (Z.of_nat n - 1) / rho / helix_turn_len r s)%R).
  destruct (set_rows_in (bbidxs L loops)
              (map (helix_point r s) (linspace 0 W n))
              (replicate (Z.to_nat L) vzero))
    as (coords & Hset & Hlen & Hat & Hother).
  { intros i Hi. rewrite length_replicate, Z2Nat.id by done.
    by apply (bbidxs_in_range L loops). }
  { by rewrite length_map, linspace_length. }
  { by apply NoDup_bbidxs. }
  exists coords. repeat split.
  - unfold backbone_stage, np_zeros, helix_total_winding.
    destruct (decide (L < 0)); [lia|]. cbn [mbind res_bind]. fold n.
    destruct (decide (rho = 0%R)); [done|]. exact Hset.
  - by rewrite Hlen, length_replicate.
  - intros k idx Hk. apply (Hat k); [done|].
    change (map ?f ?l) with (f <$> l). rewrite list_lookup_fmap.
    unfold W. rewrite bb_phase_lookup; [done..|].
    by apply lookup_lt_Some in Hk.
  - intros j Hj Hnot. rewrite Hother by done.
    by apply lookup_replicate_2.
Qed.

Lemma ascending_chain (rest : list (Z * Z)) :
  ∀ l i a, ascending (l :: rest) → (l :: rest) !! i = Some a →
           l.1 ≤ a.1 ∧ l.2 ≤ a.2.
Proof.
  induction rest as [|l' rest IH]; intros l [|i] a (Hl & Hnext & Hrest) Ha;
    simpl in Ha; simplify_eq; try lia.
  destruct (IH l' i a Hrest Ha). pose proof Hrest as (Hl' & _). lia.
Qed.

Lemma bb_tail_outside_loops (L : Z) (rest : list (Z * Z)) :
  ∀ l x i a, ascending (l :: rest) → x ∈ bb_tail L (l :: rest) →
             (l :: rest) !! i = Some a → ¬ (a.1 < x < a.2).
Proof.
  induction rest as [|l' rest IH]; intros l x i a Hasc Hx Ha.
  - destruct i; simpl in Ha; simplify_eq.
    unfold bb_tail in Hx. simpl in Hx. apply elem_of_arange in Hx. lia.
  - pose proof Hasc as (Hl & Hnext & Hrest). pose proof Hrest as (Hl' & _).
    rewrite bb_tail_cons in Hx. apply elem_of_app in Hx as [Hx|Hx].
    + apply elem_of_arange in Hx. destruct i as [|i]; simpl in Ha.
      * simplify_eq. lia.
      * destruct (ascending_chain rest l' i a Hrest Ha). lia.
    + destruct i as [|i]; simpl in Ha.
      * simplify_eq.
        apply (proj2 (bb_tail_sorted L rest l' Hrest)) in Hx. lia.
      * by apply (IH l' x i a).
Qed.

(** No particle strictly inside a loop is a backbone index. *)
Lemma interior_not_backbone (L : Z) (loops : list (Z * Z)) (x : Z)
    (i : nat) (a : Z * Z) :
  ascending loops → loops !! i = Some a → a.1 < x < a.2 →
  x ∉ bbidxs L loops.
Proof.
  intros Hasc Ha Hx Hin. destruct loops as [|l rest]; [done|].
  rewrite bbidxs_tail in Hin. apply elem_of_app in Hin as [Hin|Hin].
  - apply elem_of_arange in Hin.
    destruct (ascending_chain rest l i a Hasc Ha). lia.
  - by apply (bb_tail_outside_loops L rest l x i a).
Qed.

(** After lines 45-69 of a well-formed call the k-th backbone particle
    sits at phase k * 2 pi / (rho T): the spacing along the helix does not
    depend on the number of backbone particles. *)
Theorem backbone_particle_positions (L : Z) (r s rho : R)
    (loops : list (Z * Z)) :
  0 ≤ L →
  ascending loops →
  Forall (λ l, 0 ≤ l.1 ∧ l.2 < L) loops →
  rho ≠ 0%R →
  r ≠ 0%R ∨ s ≠ 0%R →
  ∃ coords : list vec3,
    backbone_stage L r s loops rho = Ok coords
    ∧ ∀ k idx, bbidxs L loops !! k = Some idx →
        coords !! Z.to_nat idx
        = Some (V3 (r * sin (INR k * (2 * PI / (rho * helix_turn_len r s))))
                   (r * cos (INR k * (2 * PI / (rho * helix_turn_len r s))))
                   (INR k * (2 * PI / (rho * helix_turn_len r s))
                    / 2 / PI * s)).
Proof.
  intros HL Hasc Hrange Hrho HT.
  destruct (backbone_stage_rows L r s rho loops) as (coords & Hrun & _ & Hat & _);
    try done.
  exists coords. split; [done|]. intros k idx Hk. by rewrite (Hat k idx Hk).
Qed.

Lemma backbone_particle_positions_witness :
  ∃ coords : list vec3,
    backbone_stage 10 1 2 [(2, 6)] 1 = Ok coords
    ∧ ∀ k idx, bbidxs 10 [(2, 6)] !! k = Some idx →
        coords !! Z.to_nat idx
        = Some (V3 (1 * sin (INR k * (2 * PI / (1 * helix_turn_len 1 2))))
                   (1 * cos (INR k * (2 * PI / (1 * helix_turn_len 1 2))))
                   (INR k * (2 * PI / (1 * helix_turn_len 1 2))
                    / 2 / PI * 2)).
Proof.
  apply (backbone_particle_positions 10 1 2 1 [(2, 6)]).
  - lia.
  - simpl. lia.
  - repeat constructor; simpl; lia.
  - lra.
  - left. lra.
Defined.

(** After lines 45-69 of a well-formed call every backbone particle lies
    on the cylinder of radius |r| around the axis, and the k-th one at
    height k * s / (rho T). *)
Theorem backbone_on_cylinder (L : Z) (r s rho : R) (loops : list (Z * Z)) :
  0 ≤ L →
  ascending loops →
  Forall (λ l, 0 ≤ l.1 ∧ l.2 < L) loops →
  rho ≠ 0%R →
  r ≠ 0%R ∨ s ≠ 0%R →
  ∃ coords : list vec3,
    backbone_stage L r s loops rho = Ok coords
    ∧ ∀ k idx, bbidxs L loops !! k = Some idx →
        ∃ v, coords !! Z.to_nat idx = Some v
             ∧ (vx v * vx v + vy v * vy v)%R = (r * r)%R
             ∧ vz v = (INR k * (s / (rho * helix_turn_len r s)))%R.
Proof.
  intros HL Hasc Hrange Hrho HT.
  destruct (backbone_stage_rows L r s rho loops) as (coords & Hrun & _ & Hat & _);
    try done.
  exists coords. split; [done|]. intros k idx Hk.
  eexists. split; [apply (Hat k idx Hk)|]. unfold helix_point. simpl. split.
  - set (phi := (INR k * (2 * PI / (rho * helix_turn_len r s)))%R).
    pose proof (sin2_cos2 phi) as Hsc. unfold Rsqr in Hsc.
    replace (r * sin phi * (r * sin phi) + r * cos phi * (r * cos phi))%R
      with (r * r * (sin phi * sin phi + cos phi * cos phi))%R by ring.
    rewrite Hsc. ring.
  - apply helix_turn_len_nonzero in HT. field.
    repeat split; (done || apply PI_neq0).
Qed.

Lemma backbone_on_cylinder_witness :
  ∃ coords : list vec3,
    backbone_stage 10 1 2 [(2, 6)] 1 = Ok coords
    ∧ ∀ k idx, bbidxs 10 [(2, 6)] !! k = Some idx →
        ∃ v, coords !! Z.to_nat idx = Some v
             ∧ (vx v * vx v + vy v * vy v)%R = (1 * 1)%R
             ∧ vz v = (INR k * (2 / (1 * helix_turn_len 1 2)))%R.
Proof.
  apply (backbone_on_cylinder 10 1 2 1 [(2, 6)]).
  - lia.
  - simpl. lia.
  - repeat constructor; simpl; lia.
  - lra.
  - left. lra.
Defined.

(** After lines 45-69 of a well-formed call every particle strictly
    inside a loop is still at the origin: the helix stage writes backbone
    rows only. *)
Theorem loop_interiors_unset (L : Z) (r s rho : R) (loops : list (Z * Z)) :
  0 ≤ L →
  ascending loops →
  Forall (λ l, 0 ≤ l.1 ∧ l.2 < L) loops →
  rho ≠ 0%R →
  r ≠ 0%R ∨ s ≠ 0%R →
  ∃ coords : list vec3,
    backbone_stage L r s loops rho = Ok coords
    ∧ ∀ i a x, loops !! i = Some a → a.1 < x < a.2 →
        coords !! Z.to_nat x = Some vzero.
Proof.
  intros HL Hasc Hrange Hrho HT.
  destruct (backbone_stage_rows L r s rho loops)
    as (coords & Hrun & _ & _ & Hother); try done.
  exists coords. split; [done|]. intros i a x Ha Hx.
  rewrite Forall_lookup in Hrange. pose proof (Hrange i a Ha).
  apply Hother; [lia|]. rewrite Z2Nat.id by lia.
  by apply (interior_not_backbone L loops x i a).
Qed.

Lemma loop_interiors_unset_witness :
  ∃ coords : list vec3,
    backbone_stage 10 1 2 [(2, 6)] 1 = Ok coords
    ∧ ∀ i a x, [(2, 6)] !! i = Some a → a.1 < x < a.2 →
        coords !! Z.to_nat x = Some vzero.
Proof.
  apply (loop_interiors_unset 10 1 2 1 [(2, 6)]).
  - lia.
  - simpl. lia.
  - repeat constructor; simpl; lia.
  - lra.
  - left. lra.
Defined.

(** ** Size, order and members of the backbone *)

Lemma length_arange (a b : Z) : length (arange a b) = Z.to_nat (b - a).
Proof. apply length_seqZ. Qed.

Lemma bb_tail_length (L : Z) (rest : list (Z * Z)) :
  ∀ l, ascending (l :: rest) → Forall (λ l, l.2 < L) (l :: rest) →
       Z.of_nat (length (bb_tail L (l :: rest)))
       = L - l.2 - interior_count rest.
Proof.
  induction rest as [|l' rest IH]; intros l (Hl & Hnext & Hrest) Hrange.
  - apply Forall_cons in Hrange as [Hl2 _].
    unfold bb_tail. simpl. rewrite length_arange. lia.
  - apply Forall_cons in Hrange as [_ Hrange]. pose proof Hrest as (Hl' & _).
    rewrite bb_tail_cons, length_app, length_arange, Nat2Z.inj_add.
    rewrite (IH l' Hrest Hrange). cbn [interior_count foldr].
    fold (interior_count rest). lia.
Qed.

Lemma ascending_consecutive (loops : list (Z * Z)) :
  ∀ i a b, ascending loops → loops !! i = Some a → loops !! S i = Some b →
           a.2 ≤ b.1.
Proof.
  induction loops as [|l rest IH]; intros i a b Hasc Ha Hb; [done|].
  destruct Hasc as (Hl & Hnext & Hrest). destruct i as [|i].
  - simpl in Ha. simplify_eq. destruct rest; simpl in Hb; by simplify_eq.
  - by apply (IH i a b).
Qed.

(** The backbone of a well-formed call has L minus the number of loop
    interior particles members. *)
Theorem backbone_length (L : Z) (loops : list (Z * Z)) :
  0 ≤ L →
  ascending loops →
  Forall (λ l, 0 ≤ l.1 ∧ l.2 < L) loops →
  Z.of_nat (length (bbidxs L loops)) = L - interior_count loops.
Proof.
  intros HL Hasc Hrange. destruct loops as [|l rest].
  - simpl. rewrite length_arange. lia.
  - rewrite bbidxs_tail, length_app, length_arange, Nat2Z.inj_add.
    rewrite (bb_tail_length L rest l Hasc)
      by (eapply Forall_impl; [exact Hrange | simpl; lia]).
    apply Forall_cons in Hrange as [Hl _]. pose proof Hasc as (Hlt & _).
    cbn [interior_count foldr]. fold (interior_count rest). lia.
Qed.

Lemma backbone_length_witness :
  Z.of_nat (length (bbidxs 10 [(2, 6)])) = 10 - interior_count [(2, 6)].
Proof.
  apply (backbone_length 10 [(2, 6)]).
  - lia.
  - simpl. lia.
  - repeat constructor; simpl; lia.
Defined.

(** The backbone of a well-formed call is strictly increasing, stays
    within [0, L), and contains both chain ends and both anchors of every
    loop. *)
Theorem backbone_increasing_with_anchors (L : Z) (loops : list (Z * Z)) :
  0 < L →
  ascending loops →
  Forall (λ l, 0 ≤ l.1 ∧ l.2 < L) loops →
  StronglySorted Z.lt (bbidxs L loops)
  ∧ (∀ x, x ∈ bbidxs L loops → 0 ≤ x < L)
  ∧ 0 ∈ bbidxs L loops
  ∧ L - 1 ∈ bbidxs L loops
  ∧ ∀ i a, loops !! i = Some a →
      a.1 ∈ bbidxs L loops ∧ a.2 ∈ bbidxs L loops.
Proof.
  intros HL Hasc Hrange.
  split; [by apply bbidxs_sorted|].
  split; [intros x; by apply bbidxs_in_range|].
  destruct loops as [|l rest].
  { split; [apply elem_of_arange; lia|].
    split; [apply elem_of_arange; lia|]. by intros [|?] ? ?. }
  pose proof Hrange as Hall. rewrite Forall_lookup in Hall.
  destruct (last_loopends l rest) as (l' & Hl' & _).
  pose proof (ascending_last _ _ Hasc Hl') as Hlast.
  pose proof Hl' as Hl'i. rewrite last_lookup in Hl'i.
  pose proof (Hall _ _ Hl'i) as Hl'r. pose proof (Hall 0%nat l eq_refl) as Hlr.
  pose proof (ascending_lookup _ 0 l Hasc eq_refl) as Hfirst.
  split; [apply elem_of_bbidxs_cons; left; lia|].
  split; [apply elem_of_bbidxs_cons; right; right; exists l'; split; [done|lia]|].
  intros i a Ha. pose proof (Hall _ _ Ha) as Har.
  pose proof (ascending_lookup _ _ _ Hasc Ha) as Hlt. split.
  - apply elem_of_bbidxs_cons. destruct i as [|i].
    + simpl in Ha. simplify_eq. left. lia.
    + right; left.
      destruct (lookup_lt_is_Some_2 (l :: rest) i) as [p Hp].
      { apply lookup_lt_Some in Ha. lia. }
      pose proof (ascending_consecutive _ _ _ _ Hasc Hp Ha).
      pose proof (ascending_lookup _ _ _ Hasc Hp).
      exists i, p, a. repeat split; try done; lia.
  - apply elem_of_bbidxs_cons.
    destruct ((l :: rest) !! S i) as [b|] eqn:Hb.
    + right; left.
      pose proof (ascending_consecutive _ _ _ _ Hasc Ha Hb).
      pose proof (ascending_lookup _ _ _ Hasc Hb).
      exists i, a, b. repeat split; try done; lia.
    + right; right. exists a. split; [|lia].
      rewrite last_lookup. apply lookup_ge_None in Hb.
      pose proof (lookup_lt_Some _ _ _ Ha).
      replace (Init.Nat.pred (length (l :: rest))) with i by lia. done.
Qed.

Lemma backbone_increasing_with_anchors_witness :
  StronglySorted Z.lt (bbidxs 10 [(2, 6)])
  ∧ (∀ x, x ∈ bbidxs 10 [(2, 6)] → 0 ≤ x < 10)
  ∧ 0 ∈ bbidxs 10 [(2, 6)]
  ∧ 10 - 1 ∈ bbidxs 10 [(2, 6)]
  ∧ ∀ i a, [(2, 6)] !! i = Some a →
      a.1 ∈ bbidxs 10 [(2, 6)] ∧ a.2 ∈ bbidxs 10 [(2, 6)].
Proof.
  apply (backbone_increasing_with_anchors 10 [(2, 6)]).
  - lia.
  - simpl. lia.
  - repeat constructor; simpl; lia.
Defined.

Lemma loopstarts_swap (loops : list (Z * Z)) :
  loopstarts (map prod_swap loops) = loopstarts loops.
Proof.
  unfold loopstarts. rewrite map_map. apply map_ext.
  intros [x y]. simpl. lia.
Qed.

Lemma loopends_swap (loops : list (Z * Z)) :
  loopends (map prod_swap loops) = loopends loops.
Proof.
  unfold loopends. rewrite map_map. apply map_ext.
  intros [x y]. simpl. lia.
Qed.

(** A loop is an unordered pair: writing any loops as (end, start) changes
    neither the backbone indices nor the loop lengths, and the anchored
    direction is the same for both orders of the anchors. *)
Theorem loops_are_unordered_pairs (L : Z) (loops : list (Z * Z))
    (a b : vec3) :
  bbidxs L (map prod_swap loops) = bbidxs L loops
  ∧ looplens (map prod_swap loops) = looplens loops
  ∧ anchored_direction b a = anchored_direction a b.
Proof.
  repeat split.
  - destruct loops as [|p rest]; [done|].
    unfold bbidxs. cbn [map].
    change (prod_swap p :: map prod_swap rest)
      with (map prod_swap (p :: rest)).
    by rewrite loopstarts_swap, loopends_swap, length_map.
  - unfold looplens. by rewrite loopstarts_swap, loopends_swap.
  - unfold anchored_direction, vadd.
    by rewrite (Rplus_comm (vx b)), (Rplus_comm (vy b)), (Rplus_comm (vz b)).
Qed.

(** ** The arm placer: what it writes, what it leaves, when it fails *)

(** Placing the arms of a loop with anchors 0 <= start < end < L keeps
    the size of the array and changes no row outside the open interval
    (start, end): the anchors and all other particles stay where they
    were. *)
Theorem place_arms_frame {V} (add : V → V → V) (c : list V) (s e : Z)
    (u : V) :
  0 ≤ s → s < e → e < Z.of_nat (length c) →
  ∃ c', place_arms add c s e u = Ok c'
        ∧ length c' = length c
        ∧ ∀ i : nat, ¬ (s < Z.of_nat i < e) → c' !! i = c !! i.
Proof.
  intros Hs Hse He.
  destruct (lookup_lt_is_Some_2 c (Z.to_nat s)) as [a0 Ha]; [lia|].
  destruct (lookup_lt_is_Some_2 c (Z.to_nat e)) as [b0 Hb]; [lia|].
  destruct (place_arms_state add c s e u a0 b0) as (c' & Hrun & Hlen & Hst);
    try done.
  exists c'. repeat split; try done. intros i Hi. rewrite Hst.
  assert (2 * Z.of_nat (arm_steps s e) ≤ e - s)
    by (apply arm_steps_le; lia).
  unfold arm_value. repeat case_decide; (done || lia).
Qed.

Lemma place_arms_frame_witness :
  (0 ≤ 2 ∧ 2 < 6 ∧ 6 < Z.of_nat (length [0; 0; 10; 0; 0; 0; 20; 0; 0; 0]))
  ∧ ∃ c', place_arms Z.add [0; 0; 10; 0; 0; 0; 20; 0; 0; 0] 2 6 1 = Ok c'
        ∧ length c' = length [0; 0; 10; 0; 0; 0; 20; 0; 0; 0]
        ∧ ∀ i : nat, ¬ (2 < Z.of_nat i < 6) →
            c' !! i = [0; 0; 10; 0; 0; 0; 20; 0; 0; 0] !! i.
Proof.
  split; [simpl; lia|].
  apply (place_arms_frame Z.add [0; 0; 10; 0; 0; 0; 20; 0; 0; 0] 2 6 1);
    simpl; lia.
Defined.

(** Placing the arms of a loop with anchors 0 <= start < end < L writes
    every interior particle: with n = end - start - 1, the first
    floor(n / 2) interior rows lie on the rod from the start anchor, row
    start + j at j steps of u from it, and the other interior rows on the
    rod from the end anchor, row end - j at j steps of u from it. *)
Theorem place_arms_fills_interior {V} (add : V → V → V) (c : list V)
    (s e : Z) (u a0 b0 : V) :
  0 ≤ s → s < e → e < Z.of_nat (length c) →
  c !! Z.to_nat s = Some a0 → c !! Z.to_nat e = Some b0 →
  ∃ c', place_arms add c s e u = Ok c'
        ∧ ∀ i : nat, s < Z.of_nat i < e →
            c' !! i
            = Some (if decide (Z.of_nat i - s ≤ (e - s - 1) `div` 2)
                    then steps_from add u (Z.to_nat (Z.of_nat i - s)) a0
                    else steps_from add u (Z.to_nat (e - Z.of_nat i)) b0).
Proof.
  intros Hs Hse He Ha Hb.
  destruct (place_arms_state add c s e u a0 b0) as (c' & Hrun & Hlen & Hst);
    try done.
  exists c'. split; [done|]. intros i Hi. rewrite Hst.
  assert (HK : Z.of_nat (arm_steps s e) = (e - s) `div` 2).
  { unfold arm_steps. rewrite Z2Nat.id; [done|]. apply Z.div_pos; lia. }
  assert ((e - s - 1) `div` 2 + Z.of_nat (arm_steps s e) = e - s - 1)
    by (rewrite HK; Z.div_mod_to_equations; lia).
  assert ((e - s - 1) `div` 2 ≤ Z.of_nat (arm_steps s e))
    by (rewrite HK; Z.div_mod_to_equations; lia).
  unfold arm_value. repeat case_decide; (done || lia).
Qed.

Lemma place_arms_fills_interior_witness :
  (0 ≤ 2 ∧ 2 < 6 ∧ 6 < Z.of_nat (length [0; 0; 10; 0; 0; 0; 20; 0; 0; 0])
   ∧ [0; 0; 10; 0; 0; 0; 20; 0; 0; 0] !! Z.to_nat 2 = Some 10
   ∧ [0; 0; 10; 0; 0; 0; 20; 0; 0; 0] !! Z.to_nat 6 = Some 20)
  ∧ ∃ c', place_arms Z.add [0; 0; 10; 0; 0; 0; 20; 0; 0; 0] 2 6 1 = Ok c'
        ∧ ∀ i : nat, 2 < Z.of_nat i < 6 →
            c' !! i
            = Some (if decide (Z.of_nat i - 2 ≤ (6 - 2 - 1) `div` 2)
                    then steps_from Z.add 1 (Z.to_nat (Z.of_nat i - 2)) 10
                    else steps_from Z.add 1 (Z.to_nat (6 - Z.of_nat i)) 20).
Proof.
  split; [repeat split; simpl; lia|].
  apply (place_arms_fills_interior Z.add
           [0; 0; 10; 0; 0; 0; 20; 0; 0; 0] 2 6 1 10 20);
    (reflexivity || (simpl; lia)).
Defined.

Lemma get_row_error {V} (c : list V) (i : Z) (err : exn) :
  get_row c i = Raise err → err = IndexError.
Proof.
  unfold get_row, norm_index.
  repeat case_decide; cbn [mbind res_bind];
    try destruct (c !! _); intros ?; by simplify_eq.
Qed.

Lemma set_row_error {V} (c : list V) (i : Z) (v : V) (err : exn) :
  set_row c i v = Raise err → err = IndexError.
Proof.
  unfold set_row, norm_index.
  repeat case_decide; cbn [mbind res_bind]; intros ?; by simplify_eq.
Qed.

Lemma get_row_out {V} (c : list V) (i : Z) :
  Z.of_nat (length c) ≤ i → get_row c i = Raise IndexError.
Proof.
  intros Hi. unfold get_row, norm_index. by rewrite !decide_False by lia.
Qed.

(** A loop with at least one interior particle whose end anchor is past
    the array (0 <= start, end >= L) makes the arm placer raise the index
    error in its first iteration. *)
Theorem place_arms_out_of_range {V} (add : V → V → V) (c : list V)
    (s e : Z) (u : V) :
  0 ≤ s → 2 ≤ e - s → Z.of_nat (length c) ≤ e →
  place_arms add c s e u = Raise IndexError.
Proof.
  intros Hs Hse He. unfold place_arms.
  assert (Hk : (1 ≤ arm_steps s e)%nat) by (apply arm_steps_le; lia).
  destruct (arm_steps s e) as [|k]; [lia|]. cbn [seq arm_loop].
  assert (arm_step add s e u c 0 = Raise IndexError) as ->; [|done].
  unfold arm_step.
  destruct (get_row c (s + Z.of_nat 0)) as [a|err] eqn:Hget;
    [|by rewrite (get_row_error _ _ _ Hget)].
  cbn [mbind res_bind].
  destruct (set_row c (s + Z.of_nat 0 + 1) (add a u)) as [c1|err] eqn:Hset;
    [|by rewrite (set_row_error _ _ _ _ Hset)].
  cbn [mbind res_bind]. apply set_row_length in Hset.
  rewrite get_row_out by (rewrite Hset; simpl; lia). done.
Qed.

Lemma place_arms_out_of_range_witness :
  (0 ≤ 2 ∧ 2 ≤ 6 - 2 ∧ Z.of_nat (length [0; 0; 10; 0]) ≤ 6)
  ∧ place_arms Z.add [0; 0; 10; 0] 2 6 1 = Raise IndexError.
Proof.
  split; [simpl; lia|].
  apply (place_arms_out_of_range Z.add [0; 0; 10; 0] 2 6 1); simpl; lia.
Defined.

(** ** The randomized direction *)

Lemma cross_self_plus (d w : vec3) : cross d (vadd d w) = cross d w.
Proof. unfold cross, vadd. simpl. f_equal; ring. Qed.

(** In randomized mode (lines 75-77 and 82) the anchor separation
    d = b - a enters u only through d x shake, where shake is the drawn
    perturbation scaled into [-0.1, 0.1); when the radial part of that
    product is nonzero, u has unit length and no component along the
    axis. *)
Theorem random_direction_radial_unit (a b p : vec3) :
  let d := vsub b a in
  let shake := V3 (vx p * 0.2 - 0.1) (vy p * 0.2 - 0.1) (vz p * 0.2 - 0.1) in
  sumsq (set_z (cross d shake) 0) ≠ 0%R →
  random_direction a b p = normalize (set_z (cross d shake) 0)
  ∧ vnorm (random_direction a b p) = 1%R
  ∧ vz (random_direction a b p) = 0%R.
Proof.
  intros d shake Hw.
  assert (Heq : random_direction a b p = normalize (set_z (cross d shake) 0)).
  { unfold random_direction. fold d. fold shake.
    by rewrite cross_self_plus. }
  split; [done|]. rewrite Heq. split.
  - by apply vnorm_normalize.
  - unfold normalize, vdiv, set_z. simpl. unfold Rdiv. ring.
Qed.

Lemma random_direction_radial_unit_witness :
  sumsq (set_z (cross (vsub (V3 0 1 2) (V3 1 0 0))
                      (V3 (vx (V3 0 0 0) * 0.2 - 0.1)
                          (vy (V3 0 0 0) * 0.2 - 0.1)
                          (vz (V3 0 0 0) * 0.2 - 0.1))) 0) ≠ 0%R
  ∧ random_direction (V3 1 0 0) (V3 0 1 2) (V3 0 0 0)
    = normalize (set_z (cross (vsub (V3 0 1 2) (V3 1 0 0))
                              (V3 (vx (V3 0 0 0) * 0.2 - 0.1)
                                  (vy (V3 0 0 0) * 0.2 - 0.1)
                                  (vz (V3 0 0 0) * 0.2 - 0.1))) 0)
  ∧ vnorm (random_direction (V3 1 0 0) (V3 0 1 2) (V3 0 0 0)) = 1%R
  ∧ vz (random_direction (V3 1 0 0) (V3 0 1 2) (V3 0 0 0)) = 0%R.
Proof.
  assert (H : sumsq (set_z (cross (vsub (V3 0 1 2) (V3 1 0 0))
                      (V3 (vx (V3 0 0 0) * 0.2 - 0.1)
                          (vy (V3 0 0 0) * 0.2 - 0.1)
                          (vz (V3 0 0 0) * 0.2 - 0.1))) 0) ≠ 0%R)
    by (unfold sumsq, set_z, cross, vsub; simpl; lra).
  split; [exact H|].
  exact (random_direction_radial_unit (V3 1 0 0) (V3 0 1 2) (V3 0 0 0) H).
Defined.

(** ** Phases along the backbone *)

(** With a positive linear density and a helix that is not a point, the
    winding quotient is defined and the phases of line 64 strictly
    increase along the backbone. *)
Theorem backbone_phases_increase (n : nat) (r s rho : R) :
  (0 < rho)%R → r ≠ 0%R ∨ s ≠ 0%R →
  ∃ W, helix_total_winding n rho (helix_turn_len r s) = Ok W
       ∧ ∀ k k' x x', (k < k')%nat →
           linspace 0 W n !! k = Some x → linspace 0 W n !! k' = Some x' →
           (x < x')%R.
Proof.
  intros Hrho HT%helix_turn_len_nonzero.
  assert (0 < helix_turn_len r s)%R as HTpos.
  { pose proof (sqrt_pos ((2 * PI * r) ^ 2 + s ^ 2)) as Hpos.
    unfold helix_turn_len in *. lra. }
  eexists. split.
  { unfold helix_total_winding. rewrite decide_False by lra. reflexivity. }
  intros k k' x x' Hlt Hx Hx'.
  pose proof (lookup_lt_Some _ _ _ Hx) as Hk.
  pose proof (lookup_lt_Some _ _ _ Hx') as Hk'.
  rewrite linspace_length in Hk, Hk'.
  rewrite bb_phase_lookup in Hx, Hx' by (done || lra). simplify_eq.
  apply Rmult_lt_compat_r; [|by apply lt_INR].
  pose proof PI_RGT_0. apply Rdiv_lt_0_compat; [lra|].
  by apply Rmult_lt_0_compat.
Qed.

Lemma backbone_phases_increase_witness :
  ((0 < 1)%R ∧ (1%R ≠ 0%R ∨ 2%R ≠ 0%R))
  ∧ ∃ W, helix_total_winding 7 1 (helix_turn_len 1 2) = Ok W
       ∧ ∀ k k' x x', (k < k')%nat →
           linspace 0 W 7 !! k = Some x → linspace 0 W 7 !! k' = Some x' →
           (x < x')%R.
Proof.
  assert (H1 : (0 < 1)%R) by lra.
  assert (H2 : 1%R ≠ 0%R ∨ 2%R ≠ 0%R) by (left; lra).
  split; [done|]. exact (backbone_phases_increase 7 1 2 1 H1 H2).
Defined.

(** ** The call and the random generator *)

Lemma jitter_stage_run (coords : list vec3) (idxs : list Z) (g : rng) :
  Forall (λ i, - Z.of_nat (length coords) ≤ i < Z.of_nat (length coords))
         idxs →
  jitter_stage coords idxs g
  = (Raise (NameError "kwargs"), λ k, g (length idxs * 3 + k)%nat).
Proof.
  intros Hall. destruct (get_rows_in_range coords idxs Hall) as [rows Hrows].
  unfold jitter_stage, lift, np_random, unbound_name, mbind, M_bind.
  rewrite Hrows. reflexivity.
Qed.

(** Every call ends in an exception, and which one is decided by three
    tests in this order: L < 0 (ValueError), a zero linear density
    (ZeroDivisionError), a backbone index outside [-L, L) (IndexError),
    otherwise the name error for [kwargs].  Only in the last case has the
    call touched numpy's global generator: it has drawn three numbers per
    backbone particle before failing. *)
Theorem call_outcome_and_generator (L : Z) (r s : R) (loops : list (Z * Z))
    (rho : R) (flag : bool) (shift : R) (g : rng) :
  make_helical_loopbrush L r s loops rho flag shift g
  = if decide (L < 0) then (Raise ValueError, g)
    else if decide (rho = 0%R) then (Raise ZeroDivisionError, g)
    else if decide (backbone_fits L loops)
    then (Raise (NameError "kwargs"),
          λ k, g (length (bbidxs L loops) * 3 + k)%nat)
    else (Raise IndexError, g).
Proof.
  destruct (backbone_stage_outcome L r s rho loops)
    as (Hneg & Hzero & Hout & Hin).
  unfold make_helical_loopbrush.
  unfold mbind at 1 2. unfold M_bind, lift.
  repeat case_decide.
  - by rewrite Hneg.
  - by rewrite Hzero by (done || lia).
  - destruct Hin as (coords & -> & Hlen); [lia|done|done|].
    rewrite jitter_stage_run; [done|].
    rewrite Hlen, Z2Nat.id by lia. done.
  - by rewrite Hout by (done || lia).
Qed.

(** ** Two loops *)

Lemma arm_value_outside {V} (add : V → V → V) (c : list V) (s e : Z)
    (u a0 b0 : V) (i : nat) :
  s ≤ e → ¬ (s < Z.of_nat i < e) →
  arm_value add c s e u a0 b0 (arm_steps s e) i = c !! i.
Proof.
  intros Hse Hi.
  assert (2 * Z.of_nat (arm_steps s e) ≤ e - s) by (by apply arm_steps_le).
  unfold arm_value. repeat case_decide; (done || lia).
Qed.

(** The arms of two loops that do not overlap (0 <= start1 < end1 <=
    start2 < end2 < L) can be placed in either order: both orders succeed
    and give the same array. *)
Theorem place_arms_commute {V} (add : V → V → V) (c : list V)
    (s1 e1 s2 e2 : Z) (u1 u2 : V) :
  0 ≤ s1 → s1 < e1 → e1 ≤ s2 → s2 < e2 → e2 < Z.of_nat (length c) →
  ∃ c',
    (c1 ← place_arms add c s1 e1 u1; place_arms add c1 s2 e2 u2) = Ok c'
    ∧ (c2 ← place_arms add c s2 e2 u2; place_arms add c2 s1 e1 u1) = Ok c'.
Proof.
  intros Hs1 Hse1 Hmid Hse2 He2.
  destruct (lookup_lt_is_Some_2 c (Z.to_nat s1)) as [a1 Ha1]; [lia|].
  destruct (lookup_lt_is_Some_2 c (Z.to_nat e1)) as [b1 Hb1]; [lia|].
  destruct (lookup_lt_is_Some_2 c (Z.to_nat s2)) as [a2 Ha2]; [lia|].
  destruct (lookup_lt_is_Some_2 c (Z.to_nat e2)) as [b2 Hb2]; [lia|].
  destruct (place_arms_state add c s1 e1 u1 a1 b1)
    as (c1 & Hrun1 & Hlen1 & Hst1); try (done || lia).
  destruct (place_arms_state add c s2 e2 u2 a2 b2)
    as (c2 & Hrun2 & Hlen2 & Hst2); try (done || lia).
  destruct (place_arms_state add c1 s2 e2 u2 a2 b2)
    as (c12 & Hrun12 & Hlen12 & Hst12); try (done || lia).
  { by rewrite Hst1, arm_value_outside by lia. }
  { by rewrite Hst1, arm_value_outside by lia. }
  destruct (place_arms_state add c2 s1 e1 u1 a1 b1)
    as (c21 & Hrun21 & Hlen21 & Hst21); try (done || lia).
  { by rewrite Hst2, arm_value_outside by lia. }
  { by rewrite Hst2, arm_value_outside by lia. }
  assert (c21 = c12) as Heq.
  { apply list_eq. intros i. rewrite Hst12, Hst21.
    assert (2 * Z.of_nat (arm_steps s1 e1) ≤ e1 - s1)
      by (apply arm_steps_le; lia).
    assert (2 * Z.of_nat (arm_steps s2 e2) ≤ e2 - s2)
      by (apply arm_steps_le; lia).
    unfold arm_value. rewrite Hst1, Hst2. unfold arm_value.
    repeat case_decide; (done || lia). }
  exists c12. split.
  - rewrite Hrun1. exact Hrun12.
  - rewrite Hrun2. cbn [mbind res_bind]. by rewrite Hrun21, Heq.
Qed.

Lemma place_arms_commute_witness :
  (0 ≤ 1 ∧ 1 < 4 ∧ 4 ≤ 5 ∧ 5 < 8
   ∧ 8 < Z.of_nat (length [0; 10; 0; 0; 20; 30; 0; 0; 40; 0]))
  ∧ ∃ c',
      (c1 ← place_arms Z.add [0; 10; 0; 0; 20; 30; 0; 0; 40; 0] 1 4 1;
       place_arms Z.add c1 5 8 2) = Ok c'
      ∧ (c2 ← place_arms Z.add [0; 10; 0; 0; 20; 30; 0; 0; 40; 0] 5 8 2;
         place_arms Z.add c2 1 4 1) = Ok c'.
Proof.
  split; [simpl; lia|].
  apply (place_arms_commute Z.add [0; 10; 0; 0; 20; 30; 0; 0; 40; 0]
           1 4 5 8 1 2); simpl; lia.
Defined.
